(** * dembrandt: the W3C design-token exporter and the extraction retry loop

    A shallow embedding of [lib/w3c-exporter.js] (the colour and dimension
    converters, the six category exporters and [toW3CFormat]) and of the
    browser retry loop of [index.js], followed by the properties the
    specification states about them.  Then the rest of the action of
    [index.js] (the address, the saved file, the output), the token files
    as [build-tokens.js] and [style-dictionary.config.js] pick them, and
    further properties of all of these.

    Conventions.
    - A JavaScript string is the list of its UTF-16 code units ([str]).
    - JavaScript numbers are IEEE doubles; the exporter only parses, scales,
      rounds and compares them, so the development is parametric in a
      [JSNumber] structure providing exactly those primitives.  Every result
      about the exporter holds for any such structure.  [ExactNumber] is one
      instance, with exact rational arithmetic, used to run the code on
      concrete inputs.
    - A JavaScript object used as a dictionary of tokens is a [gmap] from
      keys to tokens: assigning to an existing key overwrites it.
    - The records of an extraction result are typed as the data model
      types them (a colour is a string, a count a natural number); a
      property the code tests before use is an [option], [None] being
      [undefined]. *)

From Stdlib Require Import ZArith QArith Qround Ascii String.
From stdpp Require Import base option list gmap strings pretty.

#[local] Open Scope N_scope.

(** ** Strings *)

Abbreviation char := N (only parsing).
Abbreviation str := (list N) (only parsing).

(** A string literal of the source, as code units. *)
Definition lit (s : string) : str :=
  N_of_ascii <$> list_ascii_of_string s.
Arguments lit : simpl never.

(** [\d] *)
Definition isDigit (c : char) : bool := (48 <=? c) && (c <=? 57).

(** [\s]: ECMAScript WhiteSpace and LineTerminator code points. *)
Definition isSpace (c : char) : bool :=
  ((9 <=? c) && (c <=? 13)) || (c =? 32) || (c =? 160) || (c =? 5760)
  || ((8192 <=? c) && (c <=? 8202)) || (c =? 8232) || (c =? 8233)
  || (c =? 8239) || (c =? 8287) || (c =? 12288) || (c =? 65279).

(** [[a-z]] under the [i] flag, without the [u] flag: ASCII letters only. *)
Definition isAsciiLetter (c : char) : bool :=
  ((65 <=? c) && (c <=? 90)) || ((97 <=? c) && (c <=? 122)).

Definition isHexDigit (c : char) : bool :=
  isDigit c || ((65 <=? c) && (c <=? 70)) || ((97 <=? c) && (c <=? 102)).

Fixpoint startsWith (p s : str) : bool :=
  match p, s with
  | [], _ => true
  | _ :: _, [] => false
  | a :: p', b :: s' => (a =? b) && startsWith p' s'
  end.

(** [s.includes(p)] *)
Fixpoint includes (s p : str) : bool :=
  startsWith p s ||
  match s with
  | [] => false
  | _ :: s' => includes s' p
  end.

(** [s.replace(p, r)] with a string pattern: the first occurrence only. *)
Fixpoint replace (p r s : str) : str :=
  if startsWith p s then r ++ drop (length p) s
  else match s with
       | [] => []
       | c :: s' => c :: replace p r s'
       end.

(** The longest prefix whose characters satisfy [f], and the rest. *)
Fixpoint span (f : char -> bool) (s : str) : str * str :=
  match s with
  | c :: s' => if f c then let '(a, b) := span f s' in (c :: a, b) else ([], s)
  | [] => ([], [])
  end.

Definition skip (f : char -> bool) (s : str) : str := (span f s).2.

(** [s.trim()] *)
Definition trim (s : str) : str :=
  reverse (skip isSpace (reverse (skip isSpace s))).

(** [s.split(c)[0]] for a one-character separator. *)
Definition beforeFirst (c : char) (s : str) : str :=
  (span (fun x => negb (x =? c)) s).1.

(** [s.trim().split(/\s+/)], for [exportShadows]. *)
Fixpoint splitSpaces_aux (fuel : nat) (s : str) : list str :=
  match fuel with
  | O => []
  | S fuel' =>
      let '(w, r) := span (fun c => negb (isSpace c)) s in
      match skip isSpace r with
      | [] => [w]
      | r' => w :: splitSpaces_aux fuel' r'
      end
  end.

Definition splitSpaces (s : str) : list str :=
  splitSpaces_aux (S (length s)) s.

(** [s.padStart(2, '0')] *)
Definition padStart2 (s : str) : str :=
  match s with
  | [] => [48; 48]
  | [c] => [48; c]
  | _ => s
  end.

(** *** The regular expressions of the exporter

    One step of a matcher consumes input and leaves the rest; [None] is a
    failed match.  Every quantifier below is followed by a character outside
    its class, so the greedy reading is the only one the backtracking matcher
    can succeed with. *)

Definition expect (c : char) (s : str) : option str :=
  match s with
  | x :: r => if x =? c then Some r else None
  | [] => None
  end.

Definition expectStr (p s : str) : option str :=
  if startsWith p s then Some (drop (length p) s) else None.

(** [(class+)] *)
Definition some_of (f : char -> bool) (s : str) : option (str * str) :=
  match span f s with
  | ([], _) => None
  | p => Some p
  end.

(** The captures of an rgb()/rgba() match: three channels and the alpha
    group, which is absent ([undefined]) when it did not take part. *)
Record RgbMatch := {
  red : str;
  green : str;
  blue : str;
  alphaGroup : option str
}.

(** [,\s*(\d+)] *)
Definition commaChannel (s : str) : option (str * str) :=
  s ← expect 44 s; some_of isDigit (skip isSpace s).

(** [/rgba?\((\d+),\s*(\d+),\s*(\d+)(?:,\s*([\d.]+))?\)/] anchored at the
    head of [s]. *)
Definition rgbaAt (s : str) : option RgbMatch :=
  s ← expectStr (lit "rgb") s;
  let s := default s (expect 97 s) in
  s ← expect 40 s;
  '(r, s) ← some_of isDigit s;
  '(g, s) ← commaChannel s;
  '(b, s) ← commaChannel s;
  let withAlpha :=
    s ← expect 44 s;
    '(a, s) ← some_of (fun c => isDigit c || (c =? 46)) (skip isSpace s);
    _ ← expect 41 s;
    Some a in
  match withAlpha with
  | Some a => Some {| red := r; green := g; blue := b; alphaGroup := Some a |}
  | None =>
      _ ← expect 41 s;
      Some {| red := r; green := g; blue := b; alphaGroup := None |}
  end.

(** [/rgb\((\d+),\s*(\d+),\s*(\d+)\)/] anchored at the head of [s]. *)
Definition rgbAt (s : str) : option RgbMatch :=
  s ← expectStr (lit "rgb(") s;
  '(r, s) ← some_of isDigit s;
  '(g, s) ← commaChannel s;
  '(b, s) ← commaChannel s;
  _ ← expect 41 s;
  Some {| red := r; green := g; blue := b; alphaGroup := None |}.

(** [s.match(re)] for a regular expression without the [g] flag: the
    leftmost position at which the anchored matcher succeeds. *)
Fixpoint search {A} (m : str -> option A) (s : str) : option A :=
  match m s with
  | Some x => Some x
  | None => match s with
            | [] => None
            | _ :: s' => search m s'
            end
  end.

(** The regular expression of [toW3CDimension], anchored at both ends and
    case-insensitive: one or more of [-], digits and [.]; optional white
    space; then any number of ASCII letters and [%].  The captures are the
    number and the unit. *)
Definition dimensionRe (s : str) : option (str * str) :=
  '(n, s) ← some_of (fun c => isDigit c || (c =? 45) || (c =? 46)) s;
  let '(u, s) := span (fun c => isAsciiLetter c || (c =? 37)) (skip isSpace s) in
  match s with
  | [] => Some (n, u)
  | _ => None
  end.

(** [/^#[0-9a-fA-F]{6}$/] *)
Definition isHexColor (s : str) : bool :=
  match s with
  | 35 :: h => (length h =? 6)%nat && forallb isHexDigit h
  | _ => false
  end.

(** [name.replace(/\s+/g, '-')]: every maximal run of white space becomes
    one hyphen.  [inRun] says the previous character was white space. *)
Fixpoint hyphenateRuns (inRun : bool) (s : str) : str :=
  match s with
  | [] => []
  | c :: s' =>
      if isSpace c
      then if inRun then hyphenateRuns true s' else 45 :: hyphenateRuns true s'
      else c :: hyphenateRuns false s'
  end.

(** The truth value of a string: only the empty string is falsy. *)
Definition truthyStr (s : str) : bool :=
  match s with
  | [] => false
  | _ => true
  end.

(** [s || d] on strings. *)
Definition orStr (s d : str) : str := if truthyStr s then s else d.

(** A decimal integer inside a template literal, as in [`palette-${i + 1}`]. *)
Definition decimal (n : N) : str := lit (pretty n).
Arguments decimal : simpl never.

(** ** The host: numbers, case mapping and URL parsing *)

(** The operations on JavaScript numbers the exporter uses. *)
Class JSNumber := {
  num : Type;
  (** a numeric literal of the source *)
  literal : Q -> num;
  mul : num -> num -> num;
  div : num -> num -> num;
  Math_round : num -> num;
  (** [x === y] *)
  strictEq : num -> num -> bool;
  (** the truth value of a number: false for zero and NaN *)
  truthyNum : num -> bool;
  parseFloat : str -> num;
  (** [parseInt(s)] and [parseInt(s, radix)] *)
  parseInt : str -> option Z -> num;
  (** [x.toString()] and [x.toString(radix)] *)
  numToString : num -> option Z -> str;
  (** a literal is a number, not NaN: it is strictly equal to itself *)
  strictEq_literal : forall q, strictEq (literal q) (literal q) = true
}.

(** What the exporter asks of the string and URL libraries. *)
Class JSHost := {
  toLowerCase : str -> str;
  (** [new URL(url).hostname]; [None] when the constructor throws *)
  hostname : str -> option str
}.

(** ** The retry loop of [index.js] *)

(** What a rejected promise carries: an [Error], of which the loop reads
    the message, a string. *)
Record Error := { message : str }.

Inductive Outcome (R : Type) :=
| Resolved (r : R)
| Rejected (e : Error).
Arguments Resolved {R} r.
Arguments Rejected {R} e.

(** The browser driver and the extraction as the loop sees them: what the
    [n]-th launch and the extraction that follows it answer, given the
    mode.  [browser.close()] resolves. *)
Record World (R : Type) := {
  launch : nat -> bool -> option Error;
  extractBranding : nat -> bool -> Outcome R
}.
Arguments launch {R} w n headless.
Arguments extractBranding {R} w n headless.

(** What a run does to the outside, in order. *)
Inductive Event :=
| Launch (headless : bool)
| Extract (headless : bool)
| Close
| WarnRetry.

(** The loop variables: [useHeaded], whether [browser] holds a browser, the
    number of launches so far and the events so far. *)
Record LoopState := {
  useHeaded : bool;
  browser : bool;
  launches : nat;
  trace : list Event
}.

Definition initial : LoopState :=
  {| useHeaded := false; browser := false; launches := 0; trace := [] |}.

(** The navigation and timeout class of errors, as the [catch] block tests
    it. *)
Definition retryable (e : Error) : bool :=
  includes (message e) (lit "Timeout") || includes (message e) (lit "net::ERR_").

(** How one iteration of [while (true)] ends: [break] with the result,
    [throw] to the outer handler, or [continue]. *)
Inductive Step (R : Type) :=
| Break (r : R) (s : LoopState)
| Throw (e : Error) (s : LoopState)
| Continue (s : LoopState).
Arguments Break {R} r s.
Arguments Throw {R} e s.
Arguments Continue {R} s.

(** The body of the loop: launch a browser in the current mode, extract,
    and on failure close the browser and decide. *)
Definition iteration {R} (w : World R) (s : LoopState) : Step R :=
  let n := launches s in
  let headless := negb (useHeaded s) in
  let s := {| useHeaded := useHeaded s; browser := browser s;
              launches := S n; trace := trace s ++ [Launch headless] |} in
  match launch w n headless with
  | Some e => Throw e s
  | None =>
      let s := {| useHeaded := useHeaded s; browser := true;
                  launches := launches s;
                  trace := trace s ++ [Extract headless] |} in
      match extractBranding w n headless with
      | Resolved r => Break r s
      | Rejected err =>
          let s := {| useHeaded := useHeaded s; browser := false;
                      launches := launches s; trace := trace s ++ [Close] |} in
          if useHeaded s then Throw err s
          else if retryable err
          then Continue {| useHeaded := true; browser := browser s;
                           launches := launches s;
                           trace := trace s ++ [WarnRetry] |}
          else Throw err s
      end
  end.

(** How the [try] block around the loop ends. *)
Inductive Run (R : Type) :=
| Returned (r : R) (s : LoopState)
| Failed (e : Error) (s : LoopState).
Arguments Returned {R} r s.
Arguments Failed {R} e s.

(** [while (true) { ... }], with a bound on the number of iterations; [None]
    when the bound is reached. *)
Fixpoint loop {R} (w : World R) (fuel : nat) (s : LoopState) : option (Run R) :=
  match fuel with
  | O => None
  | S fuel' =>
      match iteration w s with
      | Break r s' => Some (Returned r s')
      | Throw e s' => Some (Failed e s')
      | Continue s' => loop w fuel' s'
      end
  end.

Definition finalState {R} (r : Run R) : LoopState :=
  match r with
  | Returned _ s => s
  | Failed _ s => s
  end.

Definition isLaunch (ev : Event) : bool :=
  match ev with
  | Launch _ => true
  | _ => false
  end.

Definition isVisibleLaunch (ev : Event) : bool :=
  match ev with
  | Launch false => true
  | _ => false
  end.

(** The number of events of a trace that satisfy [f]. *)
Definition occurrences (f : Event -> bool) (t : list Event) : nat :=
  length (List.filter f t).

(** ** The exporter, [lib/w3c-exporter.js] *)

(** Entries that carry a confidence tier: a string, or nothing. *)
Class Scored (A : Type) := confidence : A -> option str.

(** [entry.confidence !== 'low'] *)
Definition notLow {A} `{Scored A} (entry : A) : Prop :=
  confidence entry <> Some (lit "low").

#[global] Instance notLow_dec {A} `{Scored A} (entry : A) : Decision (notLow entry).
Proof. unfold notLow. apply _. Defined.

(** [array.slice(0, n)] *)
Definition slice0 {A} (n : nat) (l : list A) : list A := take n l.

(** [array.forEach((x, index) => { o[key] = token })] on an empty object
    [o]: the assignments happen in order, a later one to the same key
    replacing the earlier. *)
Definition assign {V} (o : gmap (list N) V) (kv : list N * V) : gmap (list N) V :=
  <[kv.1 := kv.2]> o.

Definition forEachAssign {A V} (f : nat -> A -> list N * V) (l : list A)
  : gmap (list N) V :=
  foldl assign ∅ (imap f l).

(** [Object.keys(o).length > 0 ? o : null], and the guarded assignment
    [if (Object.keys(o).length > 0) parent.field = o]. *)
Definition nonEmpty {V} (o : gmap (list N) V) : option (gmap (list N) V) :=
  if decide (0 < size o)%nat then Some o else None.

(** Whether an optional property of an object built by the exporter was
    assigned: [Object.keys] counts the assigned ones. *)
Definition present {A} (o : option A) : bool :=
  match o with
  | Some _ => true
  | None => false
  end.

(** [new Set()] filled by [add] in list order, read back by [Array.from]:
    first occurrences, in order. *)
Definition addOnce (seen : list str) (x : str) : list str :=
  if decide (x ∈ seen) then seen else seen ++ [x].

(** ** Notions the properties are stated with *)

(** [x] occurs before [y] in [l]. *)
Definition before {A} (x y : A) (l : list A) : Prop :=
  exists l1 l2 l3, l = l1 ++ x :: l2 ++ y :: l3.

(** The number of tokens of a group that may be absent. *)
Definition groupSize {V} (g : option (gmap (list N) V)) : nat :=
  from_option size 0%nat g.

Section Exporter.
Context `{JSNumber} `{JSHost}.

Record W3CColor := {
  colorSpace : str;
  components : list num;
  hex : str;
  alpha : option num
}.

(** [Math.round(x * 1000) / 1000] *)
Definition round3 (x : num) : num :=
  div (Math_round (mul x (literal 1000%Q))) (literal 1000%Q).

(** [x || d] on numbers. *)
Definition orNum (x d : num) : num := if truthyNum x then x else d.

(** The object both rgb branches build from the three captured channels. *)
Definition rgbResult (m : RgbMatch) (a : option num) : W3CColor :=
  let r := div (parseInt (red m) None) (literal 255%Q) in
  let g := div (parseInt (green m) None) (literal 255%Q) in
  let b := div (parseInt (blue m) None) (literal 255%Q) in
  let hexR := padStart2 (numToString (parseInt (red m) None) (Some 16%Z)) in
  let hexG := padStart2 (numToString (parseInt (green m) None) (Some 16%Z)) in
  let hexB := padStart2 (numToString (parseInt (blue m) None) (Some 16%Z)) in
  {| colorSpace := lit "srgb";
     components := [round3 r; round3 g; round3 b];
     hex := 35 :: hexR ++ hexG ++ hexB;
     alpha := a |}.

Definition black : W3CColor :=
  {| colorSpace := lit "srgb";
     components := [literal 0%Q; literal 0%Q; literal 0%Q];
     hex := lit "#000000";
     alpha := None |}.

(** The match of the first branch: [color.includes('rgba')] and the
    rgba regular expression. *)
Definition rgbaMatch (color : str) : option RgbMatch :=
  if includes color (lit "rgba") then search rgbaAt color else None.

(** The match of the second branch: [color.includes('rgb')] and the rgb
    regular expression. *)
Definition rgbMatch (color : str) : option RgbMatch :=
  if includes color (lit "rgb") then search rgbAt color else None.

(** [alpha !== 1 ? Math.round(alpha * 1000) / 1000 : absent] *)
Definition alphaField (a : num) : option num :=
  if strictEq a (literal 1%Q) then None else Some (round3 a).

(** [hexToW3CColor(color, alpha = 1)]; [None] is the omitted argument. *)
Definition hexToW3CColor (color : str) (alpha0 : option num) : W3CColor :=
  let alpha1 := default (literal 1%Q) alpha0 in
  match rgbaMatch color with
  | Some m =>
      let alpha2 :=
        match alphaGroup m with
        | Some a => if truthyStr a then parseFloat a else literal 1%Q
        | None => literal 1%Q
        end in
      rgbResult m (alphaField alpha2)
  | None =>
      match rgbMatch color with
      | Some m => rgbResult m None
      | None =>
          let cleanHex := replace (lit "#") [] color in
          if negb (length cleanHex =? 6)%nat then black
          else
            let r := div (parseInt (take 2 cleanHex) (Some 16%Z)) (literal 255%Q) in
            let g := div (parseInt (take 2 (drop 2 cleanHex)) (Some 16%Z)) (literal 255%Q) in
            let b := div (parseInt (take 2 (drop 4 cleanHex)) (Some 16%Z)) (literal 255%Q) in
            {| colorSpace := lit "srgb";
               components := [round3 r; round3 g; round3 b];
               hex := 35 :: cleanHex;
               alpha := alphaField alpha1 |}
      end
  end.


(** A string or a number. *)
Inductive Scalar :=
| Str (s : str)
| Num (n : num).

(** What [toW3CDimension] is given: a string or a number, or an object, of
    which only the [px] property is read. *)
Inductive DimensionInput :=
| Plain (v : Scalar)
| WithPx (px : option Scalar).

Record W3CDimension := {
  dimValue : Scalar;
  dimUnit : str
}.

Definition truthyScalar (v : Scalar) : bool :=
  match v with
  | Str s => truthyStr s
  | Num n => truthyNum n
  end.

Definition truthyInput (v : DimensionInput) : bool :=
  match v with
  | Plain v => truthyScalar v
  | WithPx _ => true
  end.

(** [String(v)] *)
Definition toStr (v : Scalar) : str :=
  match v with
  | Str s => s
  | Num n => numToString n None
  end.

Definition toW3CDimension (value : DimensionInput) : W3CDimension :=
  let fallback (s : str) :=
    {| dimValue := Num (orNum (parseFloat s) (literal 0%Q)); dimUnit := lit "px" |} in
  match value with
  | Plain (Str s) =>
      let cleanValue := trim (beforeFirst 40 s) in
      match dimensionRe cleanValue with
      | Some (n, u) =>
          {| dimValue := Num (parseFloat n); dimUnit := orStr u (lit "px") |}
      | None => fallback s
      end
  | Plain (Num n) => {| dimValue := Num n; dimUnit := lit "px" |}
  | WithPx (Some px) => {| dimValue := px; dimUnit := lit "px" |}
  | WithPx None => fallback (lit "[object Object]")
  end.

Definition sanitizeTokenName (name : str) : str :=
  let name := match name with
              | 36 :: rest => rest
              | _ => name
              end in
  let name :=
    (fun c => if (c =? 123) || (c =? 125) || (c =? 46) then 45 else c) <$> name in
  toLowerCase (hyphenateRuns false name).

(** *** Tokens *)

(** The [$value] of a typography token; each property holds the [$value]
    of the typed value the exporter writes there. *)
Record TypographyValue := {
  fontFamily : option str;
  fontSize : option W3CDimension;
  fontWeight : option num;
  lineHeight : option num;
  letterSpacing : option W3CDimension
}.

Record ShadowValue := {
  offsetX : W3CDimension;
  offsetY : W3CDimension;
  blur : W3CDimension;
  spread : W3CDimension;
  shadowColor : W3CColor
}.

(** A token [{ $type, $value, $description? }]; the constructor is the
    [$type]. *)
Inductive Token :=
| ColorToken (v : W3CColor) (description : option str)
| DimensionToken (v : W3CDimension)
| FontFamilyToken (v : str)
| TypographyToken (v : TypographyValue)
| ShadowToken (v : ShadowValue).

(** A group of tokens, by name. *)
Abbreviation Tokens := (gmap (list N) Token).

(** *** Colours *)

Record PaletteEntry := {
  color : str;
  normalized : option str;
  count : option N;
  paletteConfidence : option str
}.

#[global] Instance PaletteEntry_scored : Scored PaletteEntry := paletteConfidence.

(** A value of the [semantic] mapping: falsy, a string, or an object with
    a [color] property. *)
Inductive SemanticColor :=
| NoColor
| ColorString (s : str)
| ColorObject (c : option str).

Record Colors := {
  palette : option (list PaletteEntry);
  semantic : option (list (str * SemanticColor))
}.

Record ColorTokens := {
  semanticGroup : option Tokens;
  paletteGroup : option Tokens
}.

(** [typeof value === 'string' ? value : value.color], behind the two
    truth tests. *)
Definition semanticValue (value : SemanticColor) : option str :=
  match value with
  | NoColor => None
  | ColorString s => if truthyStr s then Some s else None
  | ColorObject (Some c) => if truthyStr c then Some c else None
  | ColorObject None => None
  end.

Definition exportSemantic (entries : list (str * SemanticColor)) : Tokens :=
  foldl (fun semantic kv =>
           match semanticValue kv.2 with
           | Some colorValue =>
               <[sanitizeTokenName kv.1 := ColorToken (hexToW3CColor colorValue None) None]> semantic
           | None => semantic
           end) ∅ entries.

(** The palette entries that become tokens. *)
Definition paletteKept (pal : list PaletteEntry) : list PaletteEntry :=
  slice0 30 (filter notLow pal).

Definition paletteToken (index : nat) (colorEntry : PaletteEntry) : str * Token :=
  (lit "palette-" ++ decimal (N.of_nat (index + 1)),
   ColorToken (hexToW3CColor (color colorEntry) None)
     (Some (lit "Count: " ++ decimal (default 0 (count colorEntry))
            ++ lit ", Confidence: "
            ++ orStr (default [] (confidence colorEntry)) (lit "unknown")))).

Definition exportPalette (pal : list PaletteEntry) : Tokens :=
  forEachAssign paletteToken (paletteKept pal).

Definition exportColors (colors : option Colors) : option ColorTokens :=
  match colors with
  | None => None
  | Some colors =>
      match palette colors with
      | None | Some [] => None
      | Some pal =>
          let colorTokens :=
            {| semanticGroup :=
                 match semantic colors with
                 | Some entries => nonEmpty (exportSemantic entries)
                 | None => None
                 end;
               paletteGroup := nonEmpty (exportPalette pal) |} in
          if present (semanticGroup colorTokens) || present (paletteGroup colorTokens)
          then Some colorTokens else None
      end
  end.

(** *** Typography *)

Record TypographyStyle := {
  family : option str;
  styleSize : option DimensionInput;
  weight : option Scalar;
  styleLineHeight : option Scalar;
  styleLetterSpacing : option DimensionInput;
  context : option str
}.

Record Typography := { styles : option (list TypographyStyle) }.

Record TypographyTokens := {
  fontFamilyGroup : option Tokens;
  styleGroup : option Tokens
}.

(** The truthy value of an optional string property. *)
Definition truthyOpt (o : option str) : option str :=
  match o with
  | Some s => if truthyStr s then Some s else None
  | None => None
  end.

Definition uniqueFamilies (l : list TypographyStyle) : list str :=
  foldl (fun seen style =>
           match truthyOpt (family style) with
           | Some f => addOnce seen f
           | None => seen
           end) [] l.

(** [sanitizeTokenName(family) || `font-${index + 1}`] *)
Definition familyName (index : nat) (f : str) : str :=
  orStr (sanitizeTokenName f) (lit "font-" ++ decimal (N.of_nat (index + 1))).

Definition exportFontFamilies (l : list TypographyStyle) : Tokens :=
  forEachAssign (fun index f => (familyName index f, FontFamilyToken f))
    (uniqueFamilies l).

(** The styles that become text-style tokens. *)
Definition stylesKept (l : list TypographyStyle) : list TypographyStyle :=
  slice0 10 l.

Definition guarded {A B} (f : A -> bool) (g : A -> B) (o : option A) : option B :=
  match o with
  | Some x => if f x then Some (g x) else None
  | None => None
  end.

Definition styleToken (index : nat) (style : TypographyStyle) : str * Token :=
  (match truthyOpt (context style) with
   | Some c => lit "text-" ++ sanitizeTokenName c
   | None => lit "text-" ++ decimal (N.of_nat (index + 1))
   end,
   TypographyToken
     {| fontFamily :=
          guarded truthyStr
            (fun f => lit "{typography.font-family." ++ familyName index f ++ lit "}")
            (family style);
        fontSize := guarded truthyInput toW3CDimension (styleSize style);
        fontWeight :=
          guarded truthyScalar
            (fun w => match w with
                      | Num n => n
                      | Str s => orNum (parseInt s None) (literal 400%Q)
                      end)
            (weight style);
        lineHeight :=
          guarded truthyScalar
            (fun h => orNum (parseFloat (toStr h)) (literal (3 # 2)%Q))
            (styleLineHeight style);
        letterSpacing :=
          guarded truthyInput toW3CDimension (styleLetterSpacing style) |}).

Definition exportTextStyles (l : list TypographyStyle) : Tokens :=
  forEachAssign styleToken (stylesKept l).

Definition exportTypography (typography : option Typography)
  : option TypographyTokens :=
  match typography with
  | None => None
  | Some typography =>
      match styles typography with
      | None | Some [] => None
      | Some l =>
          let typographyTokens :=
            {| fontFamilyGroup :=
                 match uniqueFamilies l with
                 | [] => None
                 | _ => Some (exportFontFamilies l)
                 end;
               styleGroup := nonEmpty (exportTextStyles l) |} in
          if present (fontFamilyGroup typographyTokens)
             || present (styleGroup typographyTokens)
          then Some typographyTokens else None
      end
  end.

(** *** Spacing *)

Record Spacing := { commonValues : option (list DimensionInput) }.

Definition spacingKept (l : list DimensionInput) : list DimensionInput :=
  slice0 12 l.

(** [value.px || value] *)
Definition pxOr (value : DimensionInput) : DimensionInput :=
  match value with
  | WithPx (Some px) => if truthyScalar px then Plain px else value
  | _ => value
  end.

Definition spacingToken (index : nat) (value : DimensionInput) : str * Token :=
  (lit "spacing-" ++ decimal (N.of_nat (index + 1)),
   DimensionToken (toW3CDimension (pxOr value))).

Definition exportSpacingTokens (l : list DimensionInput) : Tokens :=
  forEachAssign spacingToken (spacingKept l).

Definition exportSpacing (spacing : option Spacing) : option Tokens :=
  match spacing with
  | None => None
  | Some spacing =>
      match commonValues spacing with
      | None | Some [] => None
      | Some l => nonEmpty (exportSpacingTokens l)
      end
  end.

(** *** Border radius *)

Record RadiusEntry := {
  radiusValue : DimensionInput;
  radiusConfidence : option str
}.

#[global] Instance RadiusEntry_scored : Scored RadiusEntry := radiusConfidence.

Record BorderRadius := { values : option (list RadiusEntry) }.

Definition radiusKept (l : list RadiusEntry) : list RadiusEntry :=
  slice0 6 (filter notLow l).

Definition radiusToken (index : nat) (entry : RadiusEntry) : str * Token :=
  (lit "radius-" ++ decimal (N.of_nat (index + 1)),
   DimensionToken (toW3CDimension (radiusValue entry))).

Definition exportRadiusTokens (l : list RadiusEntry) : Tokens :=
  forEachAssign radiusToken (radiusKept l).

Definition exportBorderRadius (borderRadius : option BorderRadius)
  : option Tokens :=
  match borderRadius with
  | None => None
  | Some borderRadius =>
      match values borderRadius with
      | None | Some [] => None
      | Some l => nonEmpty (exportRadiusTokens l)
      end
  end.

(** *** Borders *)

Record BorderCombination := {
  width : option str;
  borderColor : option str;
  borderConfidence : option str
}.

#[global] Instance BorderCombination_scored : Scored BorderCombination :=
  borderConfidence.

Record Borders := { combinations : option (list BorderCombination) }.

Record BorderTokens := {
  widthGroup : option Tokens;
  colorGroup : option Tokens
}.

(** The objects and sets the [forEach] callback of [exportBorders]
    updates. *)
Record BorderAcc := {
  widths : Tokens;
  colors : Tokens;
  seenWidths : gset (list N);
  seenColors : gset (list N)
}.

Definition bordersKept (l : list BorderCombination) : list BorderCombination :=
  slice0 10 (filter notLow l).

Definition widthToken (w : str) : Token :=
  DimensionToken (toW3CDimension (Plain (Str w))).

Definition borderColorToken (c : str) : Token :=
  ColorToken (hexToW3CColor c None) None.

Definition addWidth (acc : BorderAcc) (combo : BorderCombination) : BorderAcc :=
  match truthyOpt (width combo) with
  | Some w =>
      if decide (w ∈ seenWidths acc) then acc
      else
        let widthIndex := (size (seenWidths acc) + 1)%nat in
        {| widths :=
             <[lit "border-width-" ++ decimal (N.of_nat widthIndex) :=
                 widthToken w]> (widths acc);
           colors := colors acc;
           seenWidths := {[w]} ∪ seenWidths acc;
           seenColors := seenColors acc |}
  | None => acc
  end.

Definition addColor (acc : BorderAcc) (combo : BorderCombination) : BorderAcc :=
  match truthyOpt (borderColor combo) with
  | Some c =>
      if decide (c ∈ seenColors acc) then acc
      else
        let colorIndex := (size (seenColors acc) + 1)%nat in
        {| widths := widths acc;
           colors :=
             <[lit "border-color-" ++ decimal (N.of_nat colorIndex) :=
                 borderColorToken c]> (colors acc);
           seenWidths := seenWidths acc;
           seenColors := {[c]} ∪ seenColors acc |}
  | None => acc
  end.

Definition borderStep (acc : BorderAcc) (combo : BorderCombination) : BorderAcc :=
  addColor (addWidth acc combo) combo.

Definition collectBorders (l : list BorderCombination) : BorderAcc :=
  foldl borderStep
    {| widths := ∅; colors := ∅; seenWidths := ∅; seenColors := ∅ |}
    (bordersKept l).

Definition exportBorders (borders : option Borders) : option BorderTokens :=
  match borders with
  | None => None
  | Some borders =>
      match combinations borders with
      | None | Some [] => None
      | Some l =>
          let acc := collectBorders l in
          let borderTokens :=
            {| widthGroup := nonEmpty (widths acc);
               colorGroup := nonEmpty (colors acc) |} in
          if present (widthGroup borderTokens) || present (colorGroup borderTokens)
          then Some borderTokens else None
      end
  end.

(** *** Shadows *)

Record ShadowEntry := {
  shadow : str;
  shadowConfidence : option str
}.

#[global] Instance ShadowEntry_scored : Scored ShadowEntry := shadowConfidence.

Definition shadowsKept (l : list ShadowEntry) : list ShadowEntry :=
  slice0 6 (filter notLow l).

(** [parts[i] || '0px'] *)
Definition part (parts : list str) (i : nat) : DimensionInput :=
  Plain (Str (orStr (default [] (parts !! i)) (lit "0px"))).

Definition shadowToken (index : nat) (entry : ShadowEntry) : str * Token :=
  let parts := splitSpaces (trim (shadow entry)) in
  let colorPart :=
    match parts !! 4%nat with
    | Some p => if truthyStr p && isHexColor p then p else lit "#000000"
    | None => lit "#000000"
    end in
  (lit "shadow-" ++ decimal (N.of_nat (index + 1)),
   ShadowToken
     {| offsetX := toW3CDimension (part parts 0);
        offsetY := toW3CDimension (part parts 1);
        blur := toW3CDimension (part parts 2);
        spread := toW3CDimension (part parts 3);
        shadowColor := hexToW3CColor colorPart None |}).

Definition exportShadowTokens (l : list ShadowEntry) : Tokens :=
  forEachAssign shadowToken (shadowsKept l).

Definition exportShadows (shadows : option (list ShadowEntry)) : option Tokens :=
  match shadows with
  | None | Some [] => None
  | Some l => nonEmpty (exportShadowTokens l)
  end.

(** *** The whole result *)

Record ExtractionResult := {
  url : option str;
  extractedAt : option str;
  resultColors : option Colors;
  resultTypography : option Typography;
  resultSpacing : option Spacing;
  resultBorderRadius : option BorderRadius;
  resultBorders : option Borders;
  resultShadows : option (list ShadowEntry)
}.

(** [$extensions['com.dembrandt']] *)
Record Extensions := {
  sourceUrl : option str;
  domain : str;
  sourceExtractedAt : option str
}.

(** The object [toW3CFormat] returns; a field that was not assigned is
    [None]. *)
Record W3CTokens := {
  extensions : Extensions;
  colorField : option ColorTokens;
  typographyField : option TypographyTokens;
  spacingField : option Tokens;
  radiusField : option Tokens;
  borderField : option BorderTokens;
  shadowField : option Tokens
}.

(** [toW3CFormat(extractionResult)]; [None] when [new URL] throws. *)
Definition toW3CFormat (extractionResult : ExtractionResult) : option W3CTokens :=
  domain ←
    match truthyOpt (url extractionResult) with
    | Some u => replace (lit "www.") [] <$> hostname u
    | None => Some (lit "unknown")
    end;
  Some {| extensions :=
            {| sourceUrl := url extractionResult;
               domain := domain;
               sourceExtractedAt := extractedAt extractionResult |};
          colorField := exportColors (resultColors extractionResult);
          typographyField := exportTypography (resultTypography extractionResult);
          spacingField := exportSpacing (resultSpacing extractionResult);
          radiusField := exportBorderRadius (resultBorderRadius extractionResult);
          borderField := exportBorders (resultBorders extractionResult);
          shadowField := exportShadows (resultShadows extractionResult) |}.

(** *** How many tokens an exporter returned

    [null] holds none; an object holds those of its groups. *)

Definition colorTokenCount (o : option ColorTokens) : nat :=
  match o with
  | Some t => (groupSize (semanticGroup t) + groupSize (paletteGroup t))%nat
  | None => 0%nat
  end.

Definition typographyTokenCount (o : option TypographyTokens) : nat :=
  match o with
  | Some t => (groupSize (fontFamilyGroup t) + groupSize (styleGroup t))%nat
  | None => 0%nat
  end.

Definition borderTokenCount (o : option BorderTokens) : nat :=
  match o with
  | Some t => (groupSize (widthGroup t) + groupSize (colorGroup t))%nat
  | None => 0%nat
  end.

End Exporter.

Abbreviation Tokens := (gmap (list N) Token).

(** ** The options of an extraction run *)

(** The flags commander hands to the action; an absent flag is
    [undefined]. *)
Record CliOptions := {
  optDarkMode : option bool;
  optMobile : option bool;
  optSlow : option bool
}.

(** The fourth argument of [extractBranding]. *)
Record Options := {
  navigationTimeout : N;
  darkMode : option bool;
  mobile : option bool;
  slow : option bool
}.

(** The options [index.js] passes to [extractBranding]. *)
Definition extractOptions (opts : CliOptions) : Options :=
  {| navigationTimeout := 90000;
     darkMode := optDarkMode opts;
     mobile := optMobile opts;
     slow := optSlow opts |}.

(** The waits of one extraction, in milliseconds. *)
Record Timing := {
  navigation : N;
  hydration : N;
  stabilization : N
}.

(** Modelled from the spec: [extractBranding] of [lib/extractors.js], which
    is not among the sources.  The specification (4.4 and 6) says the
    navigation timeout and the hydration and stabilization waits are scaled
    by a slow-mode multiplier, 1 by default and 3 in slow mode; the
    development guide gives [options.slow ? 3 : 1], a navigation timeout of
    20000 ms, a hydration wait of 8000 ms, and 24 s and 12 s for the two
    waits in slow mode. *)
Definition timeoutMultiplier (options : Options) : N :=
  match slow options with
  | Some true => 3
  | _ => 1
  end.

(** Modelled from the spec: the unscaled constants (see
    [timeoutMultiplier]). *)
Definition baseTiming : Timing :=
  {| navigation := 20000; hydration := 8000; stabilization := 4000 |}.

(** Modelled from the spec: every wait is its constant times the
    multiplier (see [timeoutMultiplier]). *)
Definition timing (options : Options) : Timing :=
  {| navigation := navigation baseTiming * timeoutMultiplier options;
     hydration := hydration baseTiming * timeoutMultiplier options;
     stabilization := stabilization baseTiming * timeoutMultiplier options |}.

(** ** A number structure to run the exporter with

    Exact rationals and NaN, every operation carried out exactly.  On the
    inputs of the examples below (channel values from 0 to 255, short
    decimals) the exporter rounds to thousandths, far from a tie, so the
    results are those of the arithmetic on doubles.  There are no
    infinities and no negative zero: where JavaScript would answer one of
    them this structure answers NaN. *)
Module ExactNumber.

Inductive exact :=
| NaN
| Rat (q : Q).

Definition lift2 (f : Q -> Q -> Q) (x y : exact) : exact :=
  match x, y with
  | Rat a, Rat b => Rat (Qred (f a b))
  | _, _ => NaN
  end.

Definition divide (x y : exact) : exact :=
  match x, y with
  | Rat a, Rat b => if Qeq_bool b 0 then NaN else Rat (Qred (a / b))
  | _, _ => NaN
  end.

(** [Math.round]: the nearest integer, ties upward. *)
Definition round (x : exact) : exact :=
  match x with
  | Rat a => Rat (inject_Z (Qfloor (a + (1 # 2))))
  | NaN => NaN
  end.

Definition equal (x y : exact) : bool :=
  match x, y with
  | Rat a, Rat b => Qeq_bool a b
  | _, _ => false
  end.

Definition truthy (x : exact) : bool :=
  match x with
  | Rat a => negb (Qeq_bool a 0)
  | NaN => false
  end.

(** The value of a digit or letter as a digit, if below the radix. *)
Definition digitValue (radix : Z) (c : char) : option Z :=
  let v := if isDigit c then Some (Z.of_N c - 48)%Z
           else if (97 <=? c) && (c <=? 122) then Some (Z.of_N c - 87)%Z
           else if (65 <=? c) && (c <=? 90) then Some (Z.of_N c - 55)%Z
           else None in
  match v with
  | Some d => if (d <? radix)%Z then Some d else None
  | None => None
  end.

(** The longest run of digits of the radix at the head of [s]: how many
    there are, their value, and the rest. *)
Fixpoint digitRun (radix : Z) (acc : Z) (n : nat) (s : str) : nat * Z * str :=
  match s with
  | c :: s' =>
      match digitValue radix c with
      | Some d => digitRun radix (acc * radix + d)%Z (S n) s'
      | None => (n, acc, s)
      end
  | [] => (n, acc, s)
  end.

Definition signOf (s : str) : Z * str :=
  match s with
  | 45 :: r => ((-1)%Z, r)
  | 43 :: r => (1%Z, r)
  | _ => (1%Z, s)
  end.

(** An exponent part [e], optional sign, digits; 0 when there is none. *)
Definition exponentOf (s : str) : Z :=
  match s with
  | c :: r =>
      if (c =? 101) || (c =? 69) then
        let '(sg, r) := signOf r in
        let '(n, v, _) := digitRun 10 0 0 r in
        match n with
        | O => 0%Z
        | _ => (sg * v)%Z
        end
      else 0%Z
  | [] => 0%Z
  end.

(** [parseFloat]: the longest decimal literal at the head of the trimmed
    string. *)
Definition parseFloatExact (s : str) : exact :=
  let '(sg, s) := signOf (skip isSpace s) in
  let '(ni, vi, s) := digitRun 10 0 0 s in
  let '(nf, vf, s) :=
    match s with
    | 46 :: r => digitRun 10 0 0 r
    | _ => (O, 0%Z, s)
    end in
  match ni, nf with
  | O, O => NaN
  | _, _ =>
      let m := (inject_Z vi + inject_Z vf / inject_Z (10 ^ Z.of_nat nf))%Q in
      Rat (Qred (inject_Z sg * m * Qpower 10 (exponentOf s)))
  end.

(** [parseInt]: an optional sign, an optional [0x] when the radix is 16 or
    absent, then digits of the radix. *)
Definition parseIntExact (s : str) (radix : option Z) : exact :=
  let '(sg, s) := signOf (skip isSpace s) in
  let r := default 0%Z radix in
  let hexPrefix :=
    match s with
    | 48 :: x :: _ => (x =? 120) || (x =? 88)
    | _ => false
    end in
  let '(r, s) :=
    if ((r =? 0)%Z || (r =? 16)%Z) && hexPrefix then (16%Z, drop 2 s)
    else if (r =? 0)%Z then (10%Z, s) else (r, s) in
  if (r <? 2)%Z || (36 <? r)%Z then NaN
  else
    let '(n, v, _) := digitRun r 0 0 s in
    match n with
    | O => NaN
    | _ => Rat (inject_Z (sg * v))
    end.

Definition digitChar (d : N) : char := if d <? 10 then 48 + d else 87 + d.

(** The digits of a natural number in a radix, most significant first. *)
Fixpoint digitsOf (fuel : nat) (radix n : N) (acc : str) : str :=
  match fuel with
  | O => acc
  | S fuel' =>
      let acc := digitChar (n mod radix) :: acc in
      if n / radix =? 0 then acc else digitsOf fuel' radix (n / radix) acc
  end.

(** [toString] of an integer, in a radix from 2 to 36 (10 when absent);
    ["NaN"] for every other number. *)
Definition toStringExact (x : exact) (radix : option Z) : str :=
  let r := Z.to_N (default 10%Z radix) in
  match x with
  | Rat a =>
      if Qeq_bool a (inject_Z (Qfloor a)) && (2 <=? r) && (r <=? 36) then
        let n := Qfloor a in
        (if (n <? 0)%Z then [45] else [])
        ++ digitsOf (S (N.to_nat (N.log2 (Z.abs_N n)))) r (Z.abs_N n) []
      else lit "NaN"
  | NaN => lit "NaN"
  end.

#[export] Instance number : JSNumber := {|
  num := exact;
  literal q := Rat (Qred q);
  mul := lift2 Qmult;
  div := divide;
  Math_round := round;
  strictEq := equal;
  truthyNum := truthy;
  parseFloat := parseFloatExact;
  parseInt := parseIntExact;
  numToString := toStringExact;
  strictEq_literal q := proj2 (Qeq_bool_iff _ _) (Qeq_refl (Qred q))
|}.

(** ASCII lower-casing, and a host name taken between [://] and the next
    [/]; enough for the URLs of the examples. *)
Definition lowerAscii (s : str) : str :=
  (fun c => if (65 <=? c) && (c <=? 90) then c + 32 else c) <$> s.

Fixpoint afterScheme (s : str) : option str :=
  match s with
  | 58 :: 47 :: 47 :: r => Some r
  | _ :: s' => afterScheme s'
  | [] => None
  end.

Definition hostOf (u : str) : option str :=
  r ← afterScheme u;
  match beforeFirst 47 r with
  | [] => None
  | h => Some (lowerAscii h)
  end.

#[export] Instance host : JSHost := {|
  toLowerCase := lowerAscii;
  hostname := hostOf
|}.

End ExactNumber.

(** ** Sample inputs *)

(** A site behind a bot wall: the headless attempt times out, the visible
    one succeeds. *)
Definition botWall : World nat :=
  {| launch := fun _ _ => None;
     extractBranding := fun _ headless =>
       if headless
       then Rejected {| message := lit "page.goto: Timeout 90000ms exceeded." |}
       else Resolved 7%nat |}.

(** A site that is down: both attempts fail, the second with an error that
    would have been retried in headless mode. *)
Definition unreachable : World nat :=
  {| launch := fun _ _ => None;
     extractBranding := fun n _ =>
       match n with
       | O => Rejected {| message := lit "page.goto: net::ERR_CONNECTION_RESET" |}
       | _ => Rejected {| message := lit "page.goto: Timeout 90000ms exceeded." |}
       end |}.

(** An extraction that fails for a reason of its own. *)
Definition broken : World nat :=
  {| launch := fun _ _ => None;
     extractBranding := fun _ _ =>
       Rejected {| message := lit "page.evaluate: ReferenceError: x is not defined" |} |}.

Import ExactNumber.

(** A palette of three entries, the second of low confidence. *)
Definition brandPurple : PaletteEntry :=
  {| color := lit "#635bff"; normalized := Some (lit "#635bff");
     count := Some 42; paletteConfidence := Some (lit "high") |}.

Definition fillerWhite : PaletteEntry :=
  {| color := lit "#ffffff"; normalized := Some (lit "#ffffff");
     count := Some 17; paletteConfidence := Some (lit "low") |}.

Definition navy : PaletteEntry :=
  {| color := lit "rgb(10, 37, 64)"; normalized := Some (lit "#0a2540");
     count := Some 9; paletteConfidence := Some (lit "medium") |}.

Definition samplePalette : list PaletteEntry := [brandPurple; fillerWhite; navy].

Definition sampleColors : Colors :=
  {| palette := Some samplePalette; semantic := None |}.


(** An extraction result with colours and spacing, a border radius whose
    only entry is of low confidence, an empty list of shadows, and no
    typography and no borders. *)
Definition sampleResult : ExtractionResult :=
  {| url := Some (lit "https://www.stripe.com/pricing");
     extractedAt := Some (lit "2025-01-28T14:30:22.000Z");
     resultColors := Some sampleColors;
     resultTypography := None;
     resultSpacing := Some {| commonValues := Some [Plain (Str (lit "8px"))] |};
     resultBorderRadius :=
       Some {| values := Some [ {| radiusValue := Plain (Str (lit "4px"));
                                   radiusConfidence := Some (lit "low") |} ] |};
     resultBorders := None;
     resultShadows := Some [] |}.

(** ** More notions the properties are stated with *)

(** A character a token name may hold: not [{], [}] or [.], and not white
    space. *)
Definition tokenNameChar (c : char) : bool :=
  negb ((c =? 123) || (c =? 125) || (c =? 46) || isSpace c).

(** A character of a unit as [toW3CDimension] reads one: an ASCII letter
    or [%]. *)
Definition unitChar (c : char) : bool := isAsciiLetter c || (c =? 37).

(** ** The transforms of [style-dictionary.config.js] *)

Section Transforms.
Context `{JSNumber}.

(** [dtcg/color/hex] on the [$value] of a colour token, an object: its
    [hex] when that is truthy, the object itself otherwise. *)
Definition colorHexTransform (value : W3CColor) : str + W3CColor :=
  if truthyStr (hex value) then inl (hex value) else inr value.

End Transforms.

(** ** More of [index.js]: the address, the saved file, the output *)

(** [s.endsWith(p)] *)
Definition endsWith (s p : str) : bool := startsWith (reverse p) (reverse s).

(** The address the action works with: the argument, with [https://] put
    before it unless it starts with [http://] or [https://]. *)
Definition withScheme (input : str) : str :=
  if negb (startsWith (lit "http://") input)
     && negb (startsWith (lit "https://") input)
  then lit "https://" ++ input
  else input.




(** The flags that decide what is written and shown; a flag that was not
    given is [undefined], which every test below reads as false. *)
Record OutputOptions := {
  jsonOnly : bool;
  saveOutput : bool;
  dtcg : bool;
  transform : bool
}.

(** [iso.replace(/[:.]/g, "-").split(".")[0]], where [iso] is what
    [new Date().toISOString()] answered. *)
Definition timestamp (iso : str) : str :=
  beforeFirst 46 ((fun c => if (c =? 58) || (c =? 46) then 45 else c) <$> iso).

Definition suffix (opts : OutputOptions) : str :=
  if dtcg opts then lit ".tokens" else [].

(** [`${timestamp}${suffix}.json`] *)
Definition filename (opts : OutputOptions) (iso : str) : str :=
  timestamp iso ++ suffix opts ++ lit ".json".

(** The test [build-tokens.js] and [style-dictionary.config.js] pick token
    files with: [f.endsWith('.tokens.json')]. *)
Definition isTokenFile (f : str) : bool := endsWith f (lit ".tokens.json").

(** What the calls to the file system and to Style Dictionary answer:
    the time, and whether a call returns ([true]) or throws. *)
Record Environment := {
  now : str;
  mkdirSync : str -> bool;
  writeFileSync : str -> str -> bool;
  execSync : str -> bool
}.

(** The lines the action prints about saving. *)
Inductive Notice :=
| SavedTo (domain name : str)
| Transforming
| Transformed
| TransformFailed
| TransformNeedsDtcg
| CouldNotSave.

Section Output.
Context `{JSNumber} `{JSHost}.

(** [outputData]: the extraction result or its W3C form. *)
Inductive OutputData :=
| RawResult (result : ExtractionResult)
| W3CData (tokens : W3CTokens).

(** The calls the action makes once the extraction has returned, in
    order; a file is named by the domain directory under [output] and its
    name there. *)
Inductive Effect :=
| MakeDirectory (domain : str)
| WriteJson (domain name : str) (data : OutputData)
| WriteConfig (domain : str)
| RunStyleDictionary (domain : str)
| Say (notice : Notice)
| PrintJson (data : OutputData)
| DisplayResults (result : ExtractionResult).

(** [opts.dtcg ? toW3CFormat(result) : result]; [None] when [toW3CFormat]
    throws. *)
Definition outputData (opts : OutputOptions) (result : ExtractionResult)
  : option OutputData :=
  if dtcg opts then W3CData <$> toW3CFormat result else Some (RawResult result).

(** The inner [try] of the transformation: write the configuration, run
    Style Dictionary; a failure of either is reported and goes no
    further. *)
Definition transformTokens (env : Environment) (domain : str) : list Effect :=
  Say Transforming :: WriteConfig domain ::
  (if writeFileSync env domain (lit ".style-dictionary.config.js")
   then RunStyleDictionary domain ::
        (if execSync env domain then [Say Transformed] else [Say TransformFailed])
   else [Say TransformFailed]).

(** The [try] block that saves the JSON file. *)
Definition saveJson (env : Environment) (opts : OutputOptions) (address : str)
    (data : OutputData) : list Effect :=
  match hostname address with
  | None => [Say CouldNotSave]
  | Some h =>
      let domain := replace (lit "www.") [] h in
      let name := filename opts (now env) in
      MakeDirectory domain ::
      (if mkdirSync env domain
       then WriteJson domain name data ::
            (if writeFileSync env domain name
             then Say (SavedTo domain name) ::
                  (if transform opts && dtcg opts
                   then transformTokens env domain
                   else if transform opts && negb (dtcg opts)
                        then [Say TransformNeedsDtcg]
                        else [])
             else [Say CouldNotSave])
       else [Say CouldNotSave])
  end.

(** What the action does with the result of the extraction, from the
    conversion to the output on the terminal; [None] when it throws, which
    the outer handler turns into exit code 1. *)
Definition report (env : Environment) (opts : OutputOptions) (address : str)
    (result : ExtractionResult) : option (list Effect) :=
  data ← outputData opts result;
  Some ((if (saveOutput opts || dtcg opts) && negb (jsonOnly opts)
         then saveJson env opts address data
         else [])
        ++ [if jsonOnly opts then PrintJson data else DisplayResults result]).


End Output.

(** ** [build-tokens.js] and [style-dictionary.config.js]: the token files

    The [output] directory as the two scripts read it.  [readdirSync]
    answers the names of a directory in some order and [statSync] what is
    behind a name; a listing here is the list of the entries in the order
    of [readdirSync], each with what [statSync] answers for its name
    (every name listed is taken to be one [statSync] can read). *)

(** A file of a domain directory: its modification time in whole
    milliseconds ([mtime.getTime()]) and as [mtimeMs]. *)
Record FileEntry := {
  fileName : str;
  mtime : Z;
  mtimeMs : Q
}.

(** An entry of [output]; [files] is its listing when it is a
    directory. *)
Record DirEntry := {
  entryName : str;
  isDirectory : bool;
  files : list FileEntry
}.

(** [join(a, b)], for a name [b] read from a directory. *)
Definition join (a b : str) : str := a ++ 47 :: b.

(** [s.split(c).pop()] for a one-character separator. *)
Definition afterLast (c : char) (s : str) : str :=
  reverse (beforeFirst c (reverse s)).

(** [array.sort(compare)].  The sort of an array is stable: of two
    elements that compare equal the one that came first stays first.
    Elements are put, from the last to the first, before the first element
    that does not have to precede them. *)
Fixpoint insertSorted {A} (compare : A -> A -> Z) (x : A) (sorted : list A)
  : list A :=
  match sorted with
  | [] => [x]
  | y :: rest =>
      if (compare x y <=? 0)%Z then x :: sorted
      else y :: insertSorted compare x rest
  end.

Definition sortBy {A} (compare : A -> A -> Z) (l : list A) : list A :=
  foldr (insertSorted compare) [] l.

Definition hasTokenFile (d : DirEntry) : bool :=
  existsb (fun f => isTokenFile (fileName f)) (files d).

(** [getAvailableDomains()]; [output] is [None] when the directory does
    not exist. *)
Definition getAvailableDomains (output : option (list DirEntry)) : list str :=
  match output with
  | None => []
  | Some names =>
      entryName <$> List.filter (fun d => isDirectory d && hasTokenFile d) names
  end.

(** [readdirSync(join(outputDir, domain))]: [None] when it throws, there
    being no such directory. *)
Definition readDomain (output : option (list DirEntry)) (domain : str)
  : option (list FileEntry) :=
  names ← output;
  d ← List.find (fun d => bool_decide (entryName d = domain)) names;
  if isDirectory d then Some (files d) else None.

(** The objects [getLatestTokenFile] sorts. *)
Record TokenFile := {
  tokenFileName : str;
  tokenFilePath : str;
  tokenFileTime : Z
}.

(** [getLatestTokenFile(domain)]: [None] when it throws, [Some None] when
    it returns [null]. *)
Definition getLatestTokenFile (outputDir : str)
    (output : option (list DirEntry)) (domain : str) : option (option str) :=
  listing ← readDomain output domain;
  let domainPath := join outputDir domain in
  let sorted :=
    sortBy (fun a b => (tokenFileTime b - tokenFileTime a)%Z)
      ((fun f => {| tokenFileName := fileName f;
                    tokenFilePath := join domainPath (fileName f);
                    tokenFileTime := mtime f |})
         <$> List.filter (fun f => isTokenFile (fileName f)) listing) in
  Some match sorted with
       | first :: _ => Some (tokenFilePath first)
       | [] => None
       end.

(** [buildDomain(domain)]; [build domain tokenFile] says whether writing
    the configuration, running Style Dictionary on the token file and
    removing the configuration all return. *)
Definition buildDomain (outputDir : str) (output : option (list DirEntry))
    (build : str -> str -> bool) (domain : str) : option bool :=
  tokenFile ← getLatestTokenFile outputDir output domain;
  Some match tokenFile with
       | Some file => if truthyStr file then build domain file else false
       | None => false
       end.

(** How the script ends. *)
Inductive BuildOutcome :=
| NoTokens
| DomainNotFound (domains : list str)
| BuiltOne (domain : str) (built : bool)
| BuiltAll (shown : list (str * str)) (successCount total : nat).

(** The main part of [build-tokens.js]; [None] when an exception escapes.
    [NoTokens] and [DomainNotFound] end with exit code 1. *)
Definition main (outputDir : str) (output : option (list DirEntry))
    (build : str -> str -> bool) (args : list str) : option BuildOutcome :=
  let domains := getAvailableDomains output in
  if (length domains =? 0)%nat then Some NoTokens
  else
    match truthyOpt (args !! 0%nat) with
    | Some requestedDomain =>
        if bool_decide (requestedDomain ∈ domains)
        then BuiltOne requestedDomain
               <$> buildDomain outputDir output build requestedDomain
        else Some (DomainNotFound domains)
    | None =>
        shown ← mapM (fun d =>
                        file ← getLatestTokenFile outputDir output d;
                        file ← file;
                        Some (d, afterLast 47 file)) domains;
        built ← mapM (buildDomain outputDir output build) domains;
        Some (BuiltAll shown (length (List.filter id built)) (length domains))
    end.

(** [findLatestTokensFile()] of [style-dictionary.config.js]; [None] when
    [readdirSync('output')] throws. *)
Definition findLatestTokensFile (output : option (list DirEntry)) : option str :=
  domains ← output;
  let latest :=
    foldl (fun latest domain =>
             if isDirectory domain
             then foldl (fun latest file =>
                           if negb (Qle_bool (mtimeMs file) latest.2)
                           then (Some (join (join (lit "output") (entryName domain))
                                         (fileName file)),
                                 mtimeMs file)
                           else latest)
                    latest
                    (List.filter (fun f => isTokenFile (fileName f)) (files domain))
             else latest)
      (None, 0%Q) domains in
  Some match latest.1 with
       | Some latestFile => orStr latestFile (lit "output/**/*.tokens.json")
       | None => lit "output/**/*.tokens.json"
       end.

(** The token files of all the domain directories, each with the entry of
    its directory, in the order the loops meet them. *)
Definition tokenFiles (domains : list DirEntry) : list (DirEntry * FileEntry) :=
  flat_map (fun d =>
              if isDirectory d
              then pair d <$> List.filter (fun f => isTokenFile (fileName f)) (files d)
              else [])
    domains.

(** What the two variables of [findLatestTokensFile] hold once the loops
    have met the token files [seen]: a time that none of them exceeds, and
    the path of one modified at that time, or [null] and 0 when none was
    modified after time 0. *)
Definition latestOf (seen : list (DirEntry * FileEntry))
    (latest : option str * Q) : Prop :=
  (0 <= latest.2)%Q /\
  Forall (fun df => (mtimeMs df.2 <= latest.2)%Q) seen /\
  match latest.1 with
  | None => (latest.2 == 0)%Q
  | Some latestFile =>
      exists d f, (d, f) ∈ seen /\
        latestFile = join (join (lit "output") (entryName d)) (fileName f) /\
        (mtimeMs f == latest.2)%Q /\ (0 < latest.2)%Q
  end.

(** ** Names handed out in order *)

Section Numbered.
Context `{JSNumber}.

(** The tokens [m] are those of the members of [seen], one each, under
    the names [prefix1] to [prefixN], [N] the number of members. *)
Definition numbered (prefix : str) (tok : str -> Token) (m : Tokens)
    (seen : gset (list N)) : Prop :=
  size m = size seen /\
  (forall k, is_Some (m !! k) <->
     exists i, (1 <= i <= size seen)%nat /\ k = prefix ++ decimal (N.of_nat i)) /\
  (forall w, w ∈ seen ->
     exists i, (1 <= i <= size seen)%nat /\
       m !! (prefix ++ decimal (N.of_nat i)) = Some (tok w)) /\
  (forall k t, m !! k = Some t -> exists w, w ∈ seen /\ t = tok w).

End Numbered.

(** ** More sample inputs *)

(** Two headings that share a context, and a body style with a family of
    its own. *)
Definition headingLarge : TypographyStyle :=
  {| family := Some (lit "Inter");
     styleSize := Some (Plain (Str (lit "32px")));
     weight := Some (Num (literal 700%Q));
     styleLineHeight := None;
     styleLetterSpacing := None;
     context := Some (lit "heading") |}.

Definition headingSmall : TypographyStyle :=
  {| family := Some (lit "Inter");
     styleSize := Some (Plain (Str (lit "24px")));
     weight := Some (Num (literal 600%Q));
     styleLineHeight := None;
     styleLetterSpacing := None;
     context := Some (lit "heading") |}.



(** The clock and a disk that takes everything. *)
Definition obligingDisk : Environment :=
  {| now := lit "2025-01-28T14:30:22.000Z";
     mkdirSync := fun _ => true;
     writeFileSync := fun _ _ => true;
     execSync := fun _ => true |}.

(** [--dtcg --transform] *)
Definition tokensAndTransform : OutputOptions :=
  {| jsonOnly := false; saveOutput := false; dtcg := true; transform := true |}.

(** [--save-output --transform] *)
Definition saveAndTransform : OutputOptions :=
  {| jsonOnly := false; saveOutput := true; dtcg := false; transform := true |}.

(** An [output] directory: the domain of the samples with a raw
    extraction and two token files, a stray file, and a domain that was
    only extracted raw. *)
Definition stripeDirectory : DirEntry :=
  {| entryName := lit "stripe.com";
     isDirectory := true;
     files :=
       [ {| fileName := lit "2025-01-28T14-30-22-000Z.tokens.json";
            mtime := 1738074622000; mtimeMs := (6952298488001 # 4)%Q |};
         {| fileName := lit "2025-01-28T14-30-22-000Z.json";
            mtime := 1738074622100; mtimeMs := (3476149244201 # 2)%Q |};
         {| fileName := lit "2025-02-03T09-00-00-000Z.tokens.json";
            mtime := 1738573200000; mtimeMs := (3477146400001 # 2)%Q |} ] |}.

Definition strayFile : DirEntry :=
  {| entryName := lit "notes.txt"; isDirectory := false; files := [] |}.

Definition rawOnlyDirectory : DirEntry :=
  {| entryName := lit "example.org";
     isDirectory := true;
     files :=
       [ {| fileName := lit "2025-03-01T12-00-00-000Z.json";
            mtime := 1740830400000; mtimeMs := 1740830400000%Q |} ] |}.

Definition sampleOutput : list DirEntry :=
  [stripeDirectory; strayFile; rawOnlyDirectory].

(** A machine on which no browser starts: the launch itself times out. *)
Definition noBrowser : World nat :=
  {| launch := fun _ _ =>
       Some {| message := lit "browserType.launch: Timeout 180000ms exceeded." |};
     extractBranding := fun _ _ => Resolved 7%nat |}.

(** A shadow as a browser computes it, the colour first, and one with a
    hexadecimal colour last. *)
Definition computedShadow : ShadowEntry :=
  {| shadow := lit "rgba(0, 0, 0, 0.1) 0px 4px 6px -1px";
     shadowConfidence := Some (lit "high") |}.

Definition authoredShadow : ShadowEntry :=
  {| shadow := lit "0px 4px 6px -1px #1a2b3c";
     shadowConfidence := Some (lit "high") |}.

(** * Properties *)

(** ** The retry loop *)

Section RetryLoop.
Context {R : Type}.
Implicit Types (w : World R) (s : LoopState) (e : Error).

Lemma retryable_spec e :
  retryable e = true <->
  includes (message e) (lit "Timeout") = true \/
  includes (message e) (lit "net::ERR_") = true.
Proof. unfold retryable. apply orb_true_iff. Qed.

Lemma occurrences_app f (t u : list Event) :
  occurrences f (t ++ u) = (occurrences f t + occurrences f u)%nat.
Proof. unfold occurrences. by rewrite List.filter_app, length_app. Qed.

(** An iteration in visible mode never asks for another one. *)
Lemma iteration_visible_stops w s :
  useHeaded s = true -> forall s', iteration w s <> Continue s'.
Proof.
  intros Hh s'. unfold iteration.
  destruct (launch w (launches s) (negb (useHeaded s))); [done|].
  destruct (extractBranding w (launches s) (negb (useHeaded s))); [done|].
  cbn. rewrite Hh. done.
Qed.

(** An iteration launches exactly one browser, and leaves [useHeaded] set
    when it asks for another iteration. *)
Lemma iteration_continue w s s' :
  iteration w s = Continue s' ->
  useHeaded s = false /\ useHeaded s' = true /\
  launches s' = S (launches s) /\
  trace s' = trace s ++ [Launch true; Extract true; Close; WarnRetry] /\
  exists err, extractBranding w (launches s) true = Rejected err /\
              retryable err = true.
Proof.
  unfold iteration.
  destruct (useHeaded s) eqn:Hh; cbn.
  - destruct (launch w (launches s) false); [done|].
    destruct (extractBranding w (launches s) false); done.
  - destruct (launch w (launches s) true); [done|].
    destruct (extractBranding w (launches s) true) as [r|err] eqn:Hx; [done|].
    destruct (retryable err) eqn:Hr; [|done].
    intros [= <-]. cbn. rewrite <- !app_assoc. cbn. eauto 10.
Qed.

(** What the first iteration does when the headless attempt fails. *)
Lemma first_iteration_rejected w e :
  launch w 0 true = None ->
  extractBranding w 0 true = Rejected e ->
  iteration w initial =
    if retryable e
    then Continue {| useHeaded := true; browser := false; launches := 1;
                     trace := [Launch true; Extract true; Close; WarnRetry] |}
    else Throw e {| useHeaded := false; browser := false; launches := 1;
                    trace := [Launch true; Extract true; Close] |}.
Proof.
  intros Hl Hx. unfold iteration, initial. cbn. rewrite Hl, Hx. cbn.
  by destruct (retryable e).
Qed.

(** The second iteration, in visible mode, ends the loop whatever
    happens. *)
Lemma visible_iteration_ends w s :
  useHeaded s = true ->
  exists r, (forall fuel, loop w (S fuel) s = Some r) /\
    launches (finalState r) = S (launches s) /\
    exists tl, trace (finalState r) = trace s ++ Launch false :: tl /\
               occurrences isLaunch tl = 0%nat.
Proof.
  intros Hh. cbn [loop]. unfold iteration. rewrite Hh. cbn.
  destruct (launch w (launches s) false) as [e|].
  { eexists (Failed e _). split; [done|]. cbn. split; [done|]. by exists []. }
  destruct (extractBranding w (launches s) false) as [r|e].
  - eexists (Returned r _). split; [done|]. cbn. split; [done|].
    exists [Extract false]. by rewrite <- app_assoc.
  - eexists (Failed e _). split; [done|]. cbn. split; [done|].
    exists [Extract false; Close]. by rewrite <- !app_assoc.
Qed.

(** The loop ends within two iterations, whatever the browser and the
    extraction do, having launched at most two browsers. *)
Lemma loop_ends w fuel :
  (2 <= fuel)%nat ->
  exists r, loop w fuel initial = Some r /\
    (launches (finalState r) <= 2)%nat /\
    (occurrences isLaunch (trace (finalState r)) <= 2)%nat /\
    (occurrences isVisibleLaunch (trace (finalState r)) <= 1)%nat.
Proof.
  intros Hf. destruct fuel as [|[|fuel]]; [lia..|].
  cbn [loop]. destruct (iteration w initial) as [r s|e s|s] eqn:Hit.
  - exists (Returned r s). split; [done|]. revert Hit. unfold iteration, initial. cbn.
    destruct (launch w 0 true); [done|].
    destruct (extractBranding w 0 true) as [r'|err]; [|by destruct (retryable err)].
    intros [= <- <-]. cbn. unfold occurrences. cbn. lia.
  - exists (Failed e s). split; [done|]. revert Hit. unfold iteration, initial. cbn.
    destruct (launch w 0 true).
    { intros [= <- <-]. cbn. unfold occurrences. cbn. lia. }
    destruct (extractBranding w 0 true) as [r'|err]; [done|].
    destruct (retryable err); [done|].
    intros [= <- <-]. cbn. unfold occurrences. cbn. lia.
  - apply iteration_continue in Hit as (_ & Hh & Hn & Ht & _).
    destruct (visible_iteration_ends w s Hh) as (r & Hr & Hl & tl & Htl & H0).
    assert (occurrences isVisibleLaunch tl <= occurrences isLaunch tl)%nat as Hle.
    { unfold occurrences. clear. induction tl as [|[[]| | |] tl IH]; cbn; lia. }
    exists r. split; [apply Hr|]. rewrite Hl, Hn, Htl, Ht.
    change (Launch false :: tl) with ([Launch false] ++ tl).
    rewrite !occurrences_app. rewrite H0 in *.
    unfold occurrences at 1 2 3 4 5 6. cbn. lia.
Qed.

End RetryLoop.

Section RetryClaims.
Context {R : Type}.
Implicit Types (w : World R) (s : LoopState) (e : Error).

(** C1.  When the headless attempt fails with error [e], the run launches a
    visible browser, once, if and only if the message of [e] contains
    ["Timeout"] or ["net::ERR_"]; then it has launched two browsers in all.
    With any other error the run ends with [e] itself thrown to the caller,
    after that one launch and no retry. *)
Theorem headless_failure_retried_iff_navigation w fuel e :
  (2 <= fuel)%nat ->
  launch w 0 true = None ->
  extractBranding w 0 true = Rejected e ->
  exists r, loop w fuel initial = Some r /\
    (occurrences isVisibleLaunch (trace (finalState r)) = 1%nat <->
       includes (message e) (lit "Timeout") = true \/
       includes (message e) (lit "net::ERR_") = true) /\
    (occurrences isVisibleLaunch (trace (finalState r)) <= 1)%nat /\
    (retryable e = true ->
       occurrences isLaunch (trace (finalState r)) = 2%nat) /\
    (includes (message e) (lit "Timeout") = false ->
     includes (message e) (lit "net::ERR_") = false ->
     exists s, r = Failed e s /\
       occurrences isLaunch (trace s) = 1%nat /\
       occurrences isVisibleLaunch (trace s) = 0%nat /\
       trace s = [Launch true; Extract true; Close]).
Proof.
  intros Hf Hl Hx. destruct fuel as [|[|fuel]]; [lia..|].
  cbn [loop]. rewrite (first_iteration_rejected w e Hl Hx).
  pose proof (retryable_spec e) as Hspec.
  destruct (retryable e) eqn:Hr.
  - set (s1 := {| useHeaded := true; browser := false; launches := 1;
                  trace := [Launch true; Extract true; Close; WarnRetry] |}).
    destruct (visible_iteration_ends w s1 eq_refl) as (r & Hr' & _ & tl & Htl & H0).
    assert (occurrences isVisibleLaunch tl = 0)%nat as Hv.
    { revert H0. unfold occurrences. clear.
      induction tl as [|[[]| | |] tl IH]; cbn; intros; try done; auto. }
    exists r. split; [apply Hr'|]. rewrite Htl.
    change (Launch false :: tl) with ([Launch false] ++ tl).
    rewrite !occurrences_app, H0, Hv. unfold occurrences, s1.
    cbn [trace List.filter isVisibleLaunch isLaunch length Nat.add].
    split; [split; [intros _; by apply Hspec | done]|].
    split; [lia|]. split; [done|].
    intros Ht Hn. destruct Hspec as [H1 _]. destruct (H1 eq_refl); congruence.
  - eexists. split; [done|]. unfold occurrences.
    cbn [finalState trace List.filter isVisibleLaunch isLaunch length Nat.add].
    split; [split; [done | intros Hm; apply Hspec in Hm; done]|].
    split; [lia|]. split; [done|].
    intros _ _. eexists. repeat split.
Qed.

(** C2.  A run ends within two iterations of the loop and launches at most
    two browsers.  When the visible attempt fails, with whatever error,
    that error is thrown to the caller and nothing more is launched: this
    holds for the second attempt of a run, and for an iteration in visible
    mode started from any state. *)
Theorem visible_failure_is_final w fuel :
  (2 <= fuel)%nat ->
  (exists r, loop w fuel initial = Some r /\
     (occurrences isLaunch (trace (finalState r)) <= 2)%nat /\
     (launches (finalState r) <= 2)%nat) /\
  (forall e0 e,
     launch w 0 true = None ->
     extractBranding w 0 true = Rejected e0 ->
     retryable e0 = true ->
     launch w 1 false = None ->
     extractBranding w 1 false = Rejected e ->
     loop w fuel initial =
       Some (Failed e {| useHeaded := true; browser := false; launches := 2;
                         trace := [Launch true; Extract true; Close; WarnRetry;
                                   Launch false; Extract false; Close] |})) /\
  (forall s e,
     useHeaded s = true ->
     launch w (launches s) false = None ->
     extractBranding w (launches s) false = Rejected e ->
     loop w fuel s =
       Some (Failed e {| useHeaded := true; browser := false;
                         launches := S (launches s);
                         trace := trace s ++ [Launch false; Extract false; Close] |})).
Proof.
  intros Hf. split; [|split].
  - destruct (loop_ends w fuel Hf) as (r & Hr & Hn & Hl & _). eauto.
  - intros e0 e Hl0 Hx0 Hr Hl1 Hx1. destruct fuel as [|[|fuel]]; [lia..|].
    cbn [loop]. rewrite (first_iteration_rejected w e0 Hl0 Hx0), Hr.
    unfold iteration. cbn. by rewrite Hl1, Hx1.
  - intros s e Hh Hl Hx. destruct fuel as [|fuel]; [lia|].
    cbn [loop]. unfold iteration. rewrite Hh. cbn. rewrite Hl, Hx. cbn.
    by rewrite <- !app_assoc.
Qed.

End RetryClaims.

(** The bot-wall run: one visible launch, because the headless error is a
    timeout. *)
Lemma botWall_retries_once :
  exists r, loop botWall 2 initial = Some r /\
    occurrences isVisibleLaunch (trace (finalState r)) = 1%nat.
Proof.
  destruct (headless_failure_retried_iff_navigation botWall 2
              {| message := lit "page.goto: Timeout 90000ms exceeded." |})
    as (r & Hr & Hiff & _); [lia | reflexivity | reflexivity |].
  exists r. split; [exact Hr|]. apply Hiff. left. vm_compute. reflexivity.
Defined.

(** The unreachable site: the second error is thrown although its message
    is a timeout. *)
Lemma unreachable_fails_after_two :
  loop unreachable 2 initial =
    Some (Failed {| message := lit "page.goto: Timeout 90000ms exceeded." |}
            {| useHeaded := true; browser := false; launches := 2;
               trace := [Launch true; Extract true; Close; WarnRetry;
                         Launch false; Extract false; Close] |}).
Proof.
  destruct (visible_failure_is_final unreachable 2) as (_ & H & _); [lia|].
  apply (H {| message := lit "page.goto: net::ERR_CONNECTION_RESET" |});
    reflexivity.
Defined.

(** An error of another class is not retried. *)
Example broken_not_retried :
  loop broken 5 initial =
    Some (Failed {| message := lit "page.evaluate: ReferenceError: x is not defined" |}
            {| useHeaded := false; browser := false; launches := 1;
               trace := [Launch true; Extract true; Close] |}).
Proof. reflexivity. Qed.

(** ** Objects filled by assignment *)

Section Objects.
Context {V : Type}.
Implicit Types (o : gmap (list N) V) (l : list (list N * V)).

Lemma size_assign o kv : (size o <= size (assign o kv) <= S (size o))%nat.
Proof.
  unfold assign. rewrite map_size_insert. destruct (o !! kv.1); cbn; lia.
Qed.

Lemma size_assign_pos o kv : (0 < size (assign o kv))%nat.
Proof.
  unfold assign. rewrite map_size_insert.
  destruct (o !! kv.1) eqn:Hk; cbn; [|lia].
  assert (size o <> 0)%nat; [|lia].
  apply map_size_non_empty_iff. intros ->. by rewrite lookup_empty in Hk.
Qed.

Lemma size_foldl_assign o l :
  (size o <= size (foldl assign o l) <= size o + length l)%nat.
Proof.
  revert o. induction l as [|kv l IH]; intros o; cbn; [lia|].
  specialize (IH (assign o kv)). pose proof (size_assign o kv). lia.
Qed.

Lemma foldl_assign_pos o l : l <> [] -> (0 < size (foldl assign o l))%nat.
Proof.
  destruct l as [|kv l]; [done|]. intros _. cbn.
  pose proof (size_foldl_assign (assign o kv) l).
  pose proof (size_assign_pos o kv). lia.
Qed.


(** Assignments to keys that are new and pairwise distinct all add a
    property. *)
Lemma size_foldl_assign_fresh o l :
  NoDup l.*1 -> (forall k, k ∈ l.*1 -> o !! k = None) ->
  size (foldl assign o l) = (size o + length l)%nat.
Proof.
  revert o. induction l as [|[k v] l IH]; intros o Hnd Hfresh; cbn; [lia|].
  cbn in Hnd. apply NoDup_cons in Hnd as [Hk Hnd].
  rewrite IH; [| done |].
  - unfold assign. cbn. rewrite map_size_insert_None; [lia|].
    apply Hfresh. cbn. left.
  - intros k' Hk'. unfold assign. cbn. rewrite lookup_insert_ne.
    + apply Hfresh. cbn. by right.
    + intros ->. done.
Qed.

Lemma lookup_foldl_assign_other o l k :
  k ∉ l.*1 -> foldl assign o l !! k = o !! k.
Proof.
  revert o. induction l as [|[k' v'] l IH]; intros o Hk; cbn; [done|].
  cbn in Hk. apply not_elem_of_cons in Hk as [Hne Hk].
  rewrite IH by done. unfold assign. cbn. by rewrite lookup_insert_ne.
Qed.

(** With pairwise distinct keys every assignment is still there at the
    end. *)
Lemma lookup_foldl_assign_distinct o l k v :
  NoDup l.*1 -> (k, v) ∈ l -> foldl assign o l !! k = Some v.
Proof.
  revert o. induction l as [|[k' v'] l IH]; intros o Hnd Hin; cbn.
  { by apply elem_of_nil in Hin. }
  cbn in Hnd. apply NoDup_cons in Hnd as [Hk Hnd].
  apply elem_of_cons in Hin as [[= -> ->]|Hin].
  - rewrite lookup_foldl_assign_other by done.
    unfold assign. cbn. apply lookup_insert_eq.
  - by apply IH.
Qed.

End Objects.

Section ForEach.
Context {A V : Type}.
Implicit Types (f : nat -> A -> list N * V) (l : list A).

Lemma forEachAssign_nil f : forEachAssign f [] = ∅.
Proof. done. Qed.

Lemma size_forEachAssign f l : (size (forEachAssign f l) <= length l)%nat.
Proof.
  unfold forEachAssign.
  pose proof (size_foldl_assign (V:=V) ∅ (imap f l)) as Hs.
  rewrite length_imap, map_size_empty in Hs. lia.
Qed.

Lemma forEachAssign_pos f l : l <> [] -> (0 < size (forEachAssign f l))%nat.
Proof.
  intros Hl. apply foldl_assign_pos. by destruct l.
Qed.

Lemma nonEmpty_forEachAssign f l :
  nonEmpty (forEachAssign f l) =
    match l with
    | [] => None
    | _ => Some (forEachAssign f l)
    end.
Proof.
  unfold nonEmpty. destruct l as [|x l].
  - by rewrite forEachAssign_nil, map_size_empty.
  - pose proof (forEachAssign_pos f (x :: l)). case_decide; [done|].
    exfalso. auto.
Qed.


(** With names that differ from one index to the next, every element of
    the list gets a property of its own. *)
Lemma size_forEachAssign_distinct f l :
  (forall i j x y, (f i x).1 = (f j y).1 -> i = j) ->
  size (forEachAssign f l) = length l.
Proof.
  intros Hinj. unfold forEachAssign.
  rewrite size_foldl_assign_fresh, map_size_empty, length_imap; [done| |].
  - apply NoDup_alt. intros i j k Hi Hj.
    rewrite list_lookup_fmap, list_lookup_imap in Hi, Hj.
    destruct (l !! i) as [x|]; [|done]. destruct (l !! j) as [y|]; [|done].
    cbn in Hi, Hj. eapply (Hinj i j x y). congruence.
  - intros k _. apply lookup_empty.
Qed.

Lemma NoDup_names f l :
  (forall i j x y, (f i x).1 = (f j y).1 -> i = j) -> NoDup (imap f l).*1.
Proof.
  intros Hinj. apply NoDup_alt. intros i j k Hi Hj.
  rewrite list_lookup_fmap, list_lookup_imap in Hi, Hj.
  destruct (l !! i) as [x|]; [|done]. destruct (l !! j) as [y|]; [|done].
  cbn in Hi, Hj. eapply (Hinj i j x y). congruence.
Qed.

(** With names that differ from one index to the next, the element of
    index [i] is found under its name. *)
Lemma lookup_forEachAssign_distinct f l i x :
  (forall i j x y, (f i x).1 = (f j y).1 -> i = j) ->
  l !! i = Some x -> forEachAssign f l !! (f i x).1 = Some (f i x).2.
Proof.
  intros Hinj Hi. apply lookup_foldl_assign_distinct; [by apply NoDup_names|].
  rewrite <- surjective_pairing. by apply elem_of_lookup_imap_2.
Qed.

End ForEach.

(** ** Names *)

Lemma lit_inj : Inj (=) (=) lit.
Proof.
  intros s1 s2 Heq. unfold lit in Heq.
  assert (Inj (=) (=) N_of_ascii) as Hinj.
  { intros a b Hab.
    rewrite <- (ascii_N_embedding a), <- (ascii_N_embedding b). by rewrite Hab. }
  apply (inj (fmap N_of_ascii)) in Heq.
  rewrite <- (string_of_list_ascii_of_string s1),
    <- (string_of_list_ascii_of_string s2). by rewrite Heq.
Qed.

Lemma decimal_inj : Inj (=) (=) decimal.
Proof. intros n m Heq%lit_inj. by apply (inj pretty) in Heq. Qed.

(** [`prefix${index + 1}`] names each index differently. *)
Lemma numbered_inj (p : list N) (i j : nat) :
  p ++ decimal (N.of_nat (i + 1)) = p ++ decimal (N.of_nat (j + 1)) -> i = j.
Proof.
  intros Heq%app_inv_head%decimal_inj. lia.
Qed.

(** ** Filtering and truncating *)

Section Ranking.
Context {A : Type}.
Implicit Types (l : list A) (x y : A).

Lemma before_sublist x y (k l : list A) :
  k `sublist_of` l -> before x y k -> before x y l.
Proof.
  intros Hsub (k1 & k2 & k3 & ->).
  apply sublist_app_l in Hsub as (m1 & m2 & -> & _ & Hsub).
  apply sublist_cons_l in Hsub as (n1 & n2 & -> & Hsub).
  apply sublist_app_l in Hsub as (p1 & p2 & -> & _ & Hsub).
  apply sublist_cons_l in Hsub as (q1 & q2 & -> & _).
  exists (m1 ++ n1), (p1 ++ q1), q2. by rewrite <- !app_assoc.
Qed.

Lemma filter_all (P : A -> Prop) `{!forall x, Decision (P x)} l :
  Forall P l -> filter P l = l.
Proof.
  induction 1 as [|x l Hx _ IH]; [done|].
  rewrite filter_cons. case_decide; [by rewrite IH|done].
Qed.

Lemma Forall_filter_self (P : A -> Prop) `{!forall x, Decision (P x)} l :
  Forall P (filter P l).
Proof. apply Forall_forall. intros x Hx. by apply list_elem_of_filter in Hx as [? _]. Qed.

Lemma slice0_length n l : length (slice0 n l) = min n (length l).
Proof. apply length_take. Qed.

Lemma slice0_prefix n l : slice0 n l `prefix_of` l.
Proof. apply prefix_take. Qed.

(** An entry that is kept is kept at its rank, and so is every entry
    ranked above it. *)
Lemma slice0_keeps_higher n l i j :
  (i <= j)%nat -> is_Some (slice0 n l !! j) ->
  slice0 n l !! i = l !! i /\ is_Some (l !! i).
Proof.
  unfold slice0. intros Hij Hj.
  apply lookup_lt_is_Some in Hj. rewrite length_take in Hj.
  split; [apply lookup_take_lt; lia|].
  apply lookup_lt_is_Some. lia.
Qed.

End Ranking.

Section Filtering.
Context {A : Type} `{Scored A}.
Implicit Types (l : list A) (x y : A).


(** Filtering keeps the order of the entries it keeps. *)
Lemma filter_notLow_before l x y :
  notLow x -> notLow y -> before x y l -> before x y (filter notLow l).
Proof.
  intros Hx Hy (l1 & l2 & l3 & ->).
  exists (filter notLow l1), (filter notLow l2), (filter notLow l3).
  rewrite filter_app, filter_cons, decide_True by done.
  by rewrite filter_app, filter_cons, decide_True by done.
Qed.

Lemma filter_notLow_idem l : filter notLow (filter notLow l) = filter notLow l.
Proof. apply filter_all, Forall_filter_self. Qed.

Lemma kept_idem n l :
  slice0 n (filter notLow (slice0 n (filter notLow l))) = slice0 n (filter notLow l).
Proof.
  rewrite filter_all by apply Forall_take, Forall_filter_self.
  unfold slice0. rewrite take_take. f_equal. lia.
Qed.

End Filtering.

(** C6.  Dropping the low-confidence entries keeps the order of the others:
    two entries that are not low, [x] before [y] in the input, are still
    [x] before [y] in the output; the output is the input with entries
    removed and nothing moved, so two entries of the output are in the
    order they had in the input. *)
Theorem exclude_low_preserves_order {A} `{Scored A} (l : list A) (x y : A) :
  notLow x -> notLow y -> before x y l ->
  before x y (filter notLow l) /\
  filter notLow l `sublist_of` l /\
  (forall a b, before a b (filter notLow l) -> before a b l).
Proof.
  intros Hx Hy Hb. split; [by apply filter_notLow_before|].
  split; [apply sublist_filter|].
  intros a b. apply before_sublist, sublist_filter.
Qed.

Lemma slice0_idem {A} (n : nat) (l : list A) :
  slice0 n (slice0 n l) = slice0 n l.
Proof. unfold slice0. rewrite take_take. f_equal. lia. Qed.

(** ** The category exporters *)

Section ExporterProperties.
Context `{JSNumber} `{JSHost}.

Lemma size_exportPalette pal :
  size (exportPalette pal) = length (paletteKept pal).
Proof.
  apply size_forEachAssign_distinct. intros i j x y. apply numbered_inj.
Qed.

Lemma size_exportSpacingTokens l :
  size (exportSpacingTokens l) = length (spacingKept l).
Proof.
  apply size_forEachAssign_distinct. intros i j x y. apply numbered_inj.
Qed.

Lemma size_exportRadiusTokens l :
  size (exportRadiusTokens l) = length (radiusKept l).
Proof.
  apply size_forEachAssign_distinct. intros i j x y. apply numbered_inj.
Qed.

Lemma size_exportShadowTokens l :
  size (exportShadowTokens l) = length (shadowsKept l).
Proof.
  apply size_forEachAssign_distinct. intros i j x y. apply numbered_inj.
Qed.

Lemma size_exportTextStyles l :
  (size (exportTextStyles l) <= length (stylesKept l))%nat.
Proof. apply size_forEachAssign. Qed.

(** *** Borders: what one step of the [forEach] adds *)

Lemma addWidth_spec acc combo :
  colors (addWidth acc combo) = colors acc /\
  seenColors (addWidth acc combo) = seenColors acc /\
  (size (widths acc) <= size (widths (addWidth acc combo)) <= S (size (widths acc)))%nat /\
  (forall k t, widths (addWidth acc combo) !! k = Some t ->
     widths acc !! k = Some t \/
     exists w, truthyOpt (width combo) = Some w /\ t = widthToken w).
Proof.
  unfold addWidth. destruct (truthyOpt (width combo)) as [w|]; [|by auto with lia].
  case_decide; [by auto with lia|]. cbn.
  split; [done|]. split; [done|]. split.
  - rewrite map_size_insert. destruct (_ !! _); cbn; lia.
  - intros k t [[_ <-]|[_ Hk]]%lookup_insert_Some; [right; eauto|by left].
Qed.

Lemma addColor_spec acc combo :
  widths (addColor acc combo) = widths acc /\
  seenWidths (addColor acc combo) = seenWidths acc /\
  (size (colors acc) <= size (colors (addColor acc combo)) <= S (size (colors acc)))%nat /\
  (forall k t, colors (addColor acc combo) !! k = Some t ->
     colors acc !! k = Some t \/
     exists c, truthyOpt (borderColor combo) = Some c /\ t = borderColorToken c).
Proof.
  unfold addColor. destruct (truthyOpt (borderColor combo)) as [c|]; [|by auto with lia].
  case_decide; [by auto with lia|]. cbn.
  split; [done|]. split; [done|]. split.
  - rewrite map_size_insert. destruct (_ !! _); cbn; lia.
  - intros k t [[_ <-]|[_ Hk]]%lookup_insert_Some; [right; eauto|by left].
Qed.

(** After the combinations [l], each object has grown by at most one token
    per combination, and every new token is the width (the colour) of one
    of them. *)
Lemma foldl_borderStep_spec l acc :
  (size (widths (foldl borderStep acc l)) <= size (widths acc) + length l)%nat /\
  (size (colors (foldl borderStep acc l)) <= size (colors acc) + length l)%nat /\
  (forall k t, widths (foldl borderStep acc l) !! k = Some t ->
     widths acc !! k = Some t \/
     exists combo w, combo ∈ l /\ truthyOpt (width combo) = Some w /\
                     t = widthToken w) /\
  (forall k t, colors (foldl borderStep acc l) !! k = Some t ->
     colors acc !! k = Some t \/
     exists combo c, combo ∈ l /\ truthyOpt (borderColor combo) = Some c /\
                     t = borderColorToken c).
Proof.
  revert acc. induction l as [|combo l IH]; intros acc; cbn.
  { repeat split; auto with lia. }
  destruct (IH (borderStep acc combo)) as (Hw & Hc & Hlw & Hlc).
  unfold borderStep in *.
  destruct (addWidth_spec acc combo) as (Ec & _ & Sw & Lw).
  destruct (addColor_spec (addWidth acc combo) combo) as (Ew & _ & Sc & Lc).
  rewrite Ew in *. rewrite Ec in *.
  split; [lia|]. split; [lia|]. split.
  - intros k t [Hk|(c' & w & Hin & Hw' & ->)]%Hlw.
    + apply Lw in Hk as [Hk|(w & Hw' & ->)]; [by left|].
      right. exists combo, w. split; [left|done].
    + right. exists c', w. split; [by right|done].
  - intros k t [Hk|(c' & c & Hin & Hc' & ->)]%Hlc.
    + apply Lc in Hk as [Hk|(c & Hc' & ->)]; [by left|].
      right. exists combo, c. split; [left|done].
    + right. exists c', c. split; [by right|done].
Qed.

Lemma collectBorders_spec l :
  (size (widths (collectBorders l)) <= length (bordersKept l))%nat /\
  (size (colors (collectBorders l)) <= length (bordersKept l))%nat /\
  (forall k t, widths (collectBorders l) !! k = Some t ->
     exists combo w, combo ∈ bordersKept l /\
       truthyOpt (width combo) = Some w /\ t = widthToken w) /\
  (forall k t, colors (collectBorders l) !! k = Some t ->
     exists combo c, combo ∈ bordersKept l /\
       truthyOpt (borderColor combo) = Some c /\ t = borderColorToken c).
Proof.
  unfold collectBorders.
  destruct (foldl_borderStep_spec (bordersKept l)
              {| widths := ∅; colors := ∅; seenWidths := ∅; seenColors := ∅ |})
    as (Hw & Hc & Hlw & Hlc).
  cbn in *. rewrite map_size_empty in *.
  split; [lia|]. split; [lia|]. split.
  - intros k t [Hk|?]%Hlw; [by rewrite lookup_empty in Hk|done].
  - intros k t [Hk|?]%Hlc; [by rewrite lookup_empty in Hk|done].
Qed.

(** *** From the token groups to what the exporters return *)

Lemma groupSize_nonEmpty {V} (g : gmap (list N) V) :
  groupSize (nonEmpty g) = size g.
Proof. unfold nonEmpty. case_decide; cbn; lia. Qed.

Lemma nonEmpty_Some {V} (g g' : gmap (list N) V) :
  nonEmpty g = Some g' -> g' = g /\ (0 < size g)%nat.
Proof. unfold nonEmpty. case_decide; [|done]. by intros [= <-]. Qed.

Lemma nonEmpty_None {V} (g : gmap (list N) V) :
  nonEmpty g = None <-> size g = 0%nat.
Proof. unfold nonEmpty. case_decide; split; (done || lia). Qed.

Lemma exportColors_paletteGroup c :
  exportColors (Some c) ≫= paletteGroup =
  palette c ≫= fun pal => nonEmpty (exportPalette pal).
Proof.
  unfold exportColors. destruct (palette c) as [[|x pal]|]; [done| |done].
  cbn [mbind option_bind paletteGroup semanticGroup].
  destruct (nonEmpty (exportPalette (x :: pal))) eqn:Hp;
    destruct (match semantic c with Some _ => _ | None => _ end); done.
Qed.

Lemma exportTypography_styleGroup t :
  exportTypography (Some t) ≫= styleGroup =
  styles t ≫= fun l => nonEmpty (exportTextStyles l).
Proof.
  unfold exportTypography. destruct (styles t) as [[|x l]|]; [done| |done].
  cbn [mbind option_bind styleGroup fontFamilyGroup].
  unfold exportTextStyles, stylesKept, slice0. rewrite nonEmpty_forEachAssign. cbn.
  by rewrite orb_true_r.
Qed.

Lemma exportBorders_widthGroup b :
  exportBorders (Some b) ≫= widthGroup =
  combinations b ≫= fun l => nonEmpty (widths (collectBorders l)).
Proof.
  unfold exportBorders. destruct (combinations b) as [[|x l]|]; [done| |done].
  cbn [mbind option_bind widthGroup colorGroup].
  destruct (nonEmpty (widths _)), (nonEmpty (colors _)); done.
Qed.

Lemma exportBorders_colorGroup b :
  exportBorders (Some b) ≫= colorGroup =
  combinations b ≫= fun l => nonEmpty (colors (collectBorders l)).
Proof.
  unfold exportBorders. destruct (combinations b) as [[|x l]|]; [done| |done].
  cbn [mbind option_bind widthGroup colorGroup].
  destruct (nonEmpty (widths _)), (nonEmpty (colors _)); done.
Qed.

Lemma exportSpacing_eq spacing :
  exportSpacing spacing =
  (spacing ≫= commonValues) ≫= fun l => nonEmpty (exportSpacingTokens l).
Proof. by destruct spacing as [[[[|]|]]|]. Qed.

Lemma exportBorderRadius_eq borderRadius :
  exportBorderRadius borderRadius =
  (borderRadius ≫= values) ≫= fun l => nonEmpty (exportRadiusTokens l).
Proof. by destruct borderRadius as [[[[|]|]]|]. Qed.

Lemma exportShadows_eq shadows :
  exportShadows shadows = shadows ≫= fun l => nonEmpty (exportShadowTokens l).
Proof. by destruct shadows as [[|]|]. Qed.




(** *** Colours *)






(** C10.  A colour that takes neither rgb branch and whose text, the first
    [#] removed, is not six characters long comes out as opaque black,
    whatever it was meant to be. *)
Theorem fallback_is_black (color : str) (alpha0 : option num) :
  rgbaMatch color = None ->
  rgbMatch color = None ->
  length (replace (lit "#") [] color) <> 6%nat ->
  hexToW3CColor color alpha0 =
    {| colorSpace := lit "srgb";
       components := [literal 0%Q; literal 0%Q; literal 0%Q];
       hex := lit "#000000";
       alpha := None |}.
Proof.
  intros Ha Hb Hlen. unfold hexToW3CColor. rewrite Ha, Hb.
  apply Nat.eqb_neq in Hlen. by rewrite Hlen.
Qed.


(** *** Caps *)

Lemma groupSize_bind_nonEmpty {A} (o : option A) (f : A -> Tokens) (n : nat) :
  (forall x, size (f x) <= n)%nat ->
  (groupSize (o ≫= fun x => nonEmpty (f x)) <= n)%nat.
Proof.
  intros Hf. destruct o as [x|]; [|cbn; lia].
  cbn [mbind option_bind]. rewrite groupSize_nonEmpty. apply Hf.
Qed.

(** C4.  What each exporter returns respects the cap of its category: at
    most 30 palette tokens, 10 text styles, 12 spacing tokens, 6 radius
    tokens, 6 shadow tokens and, for borders, at most 10 combinations read,
    so at most 10 width tokens and at most 10 colour tokens.  The entries
    an exporter reads are the first ones of the ranked sequence it is
    given (after the low-confidence filter where there is one), as many as
    the cap allows, and in the numbered groups the token of the entry of
    rank [i] is found under the name of that rank.  Truncation keeps an
    entry at its rank together with every entry ranked above it. *)
Theorem caps_keep_a_prefix :
  ((forall colors, groupSize (exportColors colors ≫= paletteGroup) <= 30)%nat /\
   (forall typography,
      groupSize (exportTypography typography ≫= styleGroup) <= 10)%nat /\
   (forall spacing, groupSize (exportSpacing spacing) <= 12)%nat /\
   (forall borderRadius, groupSize (exportBorderRadius borderRadius) <= 6)%nat /\
   (forall borders,
      groupSize (exportBorders borders ≫= widthGroup) <= 10 /\
      groupSize (exportBorders borders ≫= colorGroup) <= 10)%nat /\
   (forall shadows, groupSize (exportShadows shadows) <= 6)%nat) /\
  ((forall pal, paletteKept pal `prefix_of` filter notLow pal /\
      length (paletteKept pal) = min 30 (length (filter notLow pal))) /\
   (forall l, stylesKept l `prefix_of` l /\
      length (stylesKept l) = min 10 (length l)) /\
   (forall l, spacingKept l `prefix_of` l /\
      length (spacingKept l) = min 12 (length l)) /\
   (forall l, radiusKept l `prefix_of` filter notLow l /\
      length (radiusKept l) = min 6 (length (filter notLow l))) /\
   (forall l, bordersKept l `prefix_of` filter notLow l /\
      length (bordersKept l) = min 10 (length (filter notLow l))) /\
   (forall l, shadowsKept l `prefix_of` filter notLow l /\
      length (shadowsKept l) = min 6 (length (filter notLow l)))) /\
  ((forall pal i entry, paletteKept pal !! i = Some entry ->
      exportPalette pal !! (lit "palette-" ++ decimal (N.of_nat (i + 1)))
        = Some (paletteToken i entry).2) /\
   (forall l i value, spacingKept l !! i = Some value ->
      exportSpacingTokens l !! (lit "spacing-" ++ decimal (N.of_nat (i + 1)))
        = Some (spacingToken i value).2) /\
   (forall l i entry, radiusKept l !! i = Some entry ->
      exportRadiusTokens l !! (lit "radius-" ++ decimal (N.of_nat (i + 1)))
        = Some (radiusToken i entry).2) /\
   (forall l i entry, shadowsKept l !! i = Some entry ->
      exportShadowTokens l !! (lit "shadow-" ++ decimal (N.of_nat (i + 1)))
        = Some (shadowToken i entry).2)) /\
  (forall (A : Type) (n : nat) (ranked : list A) (i j : nat),
     (i <= j)%nat -> is_Some (slice0 n ranked !! j) ->
     slice0 n ranked !! i = ranked !! i /\ is_Some (ranked !! i)).
Proof.
  split; [|split; [|split]].
  - split; [|split; [|split; [|split; [|split]]]].
    + intros [c|]; [|cbn; lia]. rewrite exportColors_paletteGroup.
      apply groupSize_bind_nonEmpty. intros pal.
      rewrite size_exportPalette. unfold paletteKept.
      rewrite slice0_length. lia.
    + intros [t|]; [|cbn; lia]. rewrite exportTypography_styleGroup.
      apply groupSize_bind_nonEmpty. intros l.
      pose proof (size_exportTextStyles l) as Hs. unfold stylesKept in Hs.
      rewrite slice0_length in Hs. lia.
    + intros spacing. rewrite exportSpacing_eq.
      apply groupSize_bind_nonEmpty. intros l.
      rewrite size_exportSpacingTokens. unfold spacingKept.
      rewrite slice0_length. lia.
    + intros borderRadius. rewrite exportBorderRadius_eq.
      apply groupSize_bind_nonEmpty. intros l.
      rewrite size_exportRadiusTokens. unfold radiusKept.
      rewrite slice0_length. lia.
    + intros [b|]; [|cbn; lia].
      rewrite exportBorders_widthGroup, exportBorders_colorGroup.
      split; apply groupSize_bind_nonEmpty; intros l;
        destruct (collectBorders_spec l) as (Hw & Hc & _);
        unfold bordersKept in *; rewrite slice0_length in *; lia.
    + intros shadows. rewrite exportShadows_eq.
      apply groupSize_bind_nonEmpty. intros l.
      rewrite size_exportShadowTokens. unfold shadowsKept.
      rewrite slice0_length. lia.
  - repeat split; try apply slice0_prefix; apply slice0_length.
  - repeat split; intros l i x Hi.
    + apply (lookup_forEachAssign_distinct paletteToken); [|done].
      intros ? ? ? ?. apply numbered_inj.
    + apply (lookup_forEachAssign_distinct spacingToken); [|done].
      intros ? ? ? ?. apply numbered_inj.
    + apply (lookup_forEachAssign_distinct radiusToken); [|done].
      intros ? ? ? ?. apply numbered_inj.
    + apply (lookup_forEachAssign_distinct shadowToken); [|done].
      intros ? ? ? ?. apply numbered_inj.
  - intros A n ranked i j. apply slice0_keeps_higher.
Qed.

(** C7.  Truncating a list twice gives what truncating it once gives, for
    every list and every cap; so each exporter reads the same entries, and
    returns the same tokens, from a list and from what it keeps of it. *)
Theorem truncation_is_idempotent :
  (forall (A : Type) (n : nat) (ranked : list A),
     slice0 n (slice0 n ranked) = slice0 n ranked) /\
  (forall l, spacingKept (spacingKept l) = spacingKept l /\
     exportSpacingTokens (spacingKept l) = exportSpacingTokens l) /\
  (forall l, stylesKept (stylesKept l) = stylesKept l /\
     exportTextStyles (stylesKept l) = exportTextStyles l) /\
  (forall pal, paletteKept (paletteKept pal) = paletteKept pal /\
     exportPalette (paletteKept pal) = exportPalette pal) /\
  (forall l, radiusKept (radiusKept l) = radiusKept l /\
     exportRadiusTokens (radiusKept l) = exportRadiusTokens l) /\
  (forall l, bordersKept (bordersKept l) = bordersKept l /\
     collectBorders (bordersKept l) = collectBorders l) /\
  (forall l, shadowsKept (shadowsKept l) = shadowsKept l /\
     exportShadowTokens (shadowsKept l) = exportShadowTokens l).
Proof.
  split; [intros A n ranked; apply slice0_idem|].
  assert (forall l, spacingKept (spacingKept l) = spacingKept l) as Hsp
    by (intros; apply slice0_idem).
  assert (forall l, stylesKept (stylesKept l) = stylesKept l) as Hst
    by (intros; apply slice0_idem).
  assert (forall pal, paletteKept (paletteKept pal) = paletteKept pal) as Hpa
    by (intros; apply kept_idem).
  assert (forall l, radiusKept (radiusKept l) = radiusKept l) as Hra
    by (intros; apply kept_idem).
  assert (forall l, bordersKept (bordersKept l) = bordersKept l) as Hbo
    by (intros; apply kept_idem).
  assert (forall l, shadowsKept (shadowsKept l) = shadowsKept l) as Hsh
    by (intros; apply kept_idem).
  unfold exportSpacingTokens, exportTextStyles, exportPalette,
    exportRadiusTokens, collectBorders, exportShadowTokens.
  repeat split; intros; congruence.
Qed.

(** *** Presence of the category fields *)

Lemma nonEmpty_not_empty {V} (g : gmap (list N) V) : nonEmpty g <> Some ∅.
Proof.
  intros [Heq Hpos]%nonEmpty_Some. rewrite <- Heq, map_size_empty in Hpos. lia.
Qed.

Lemma groupSize_pos {V} (o : option (gmap (list N) V)) :
  o <> Some ∅ -> is_Some o -> (0 < groupSize o)%nat.
Proof.
  intros Hne [g ->]. cbn. assert (size g <> 0)%nat; [|lia].
  apply map_size_non_empty_iff. congruence.
Qed.

Lemma present_is_Some {A} (o : option A) : present o = true <-> is_Some o.
Proof. destruct o; cbn; split; (done || eauto || by intros []). Qed.

(** What [exportColors] returns is never an empty object, and none of its
    groups is empty. *)
Lemma exportColors_Some colors t :
  exportColors colors = Some t ->
  semanticGroup t <> Some ∅ /\ paletteGroup t <> Some ∅ /\
  (is_Some (semanticGroup t) \/ is_Some (paletteGroup t)).
Proof.
  unfold exportColors. destruct colors as [c|]; [|done].
  destruct (palette c) as [[|x pal]|]; [done| |done].
  match goal with |- context [present (semanticGroup ?ct)] => set (tokens := ct) end.
  destruct (present (semanticGroup tokens) || present (paletteGroup tokens)) eqn:Hp;
    [|done].
  intros [= <-]. split; [|split].
  - subst tokens. cbn [semanticGroup].
    destruct (semantic c); [apply nonEmpty_not_empty|done].
  - apply nonEmpty_not_empty.
  - apply orb_true_iff in Hp as [Hp|Hp]; apply present_is_Some in Hp; auto.
Qed.

Lemma exportTypography_Some typography t :
  exportTypography typography = Some t ->
  fontFamilyGroup t <> Some ∅ /\ styleGroup t <> Some ∅ /\
  (is_Some (fontFamilyGroup t) \/ is_Some (styleGroup t)).
Proof.
  unfold exportTypography. destruct typography as [c|]; [|done].
  destruct (styles c) as [[|x l]|]; [done| |done].
  match goal with |- context [present (fontFamilyGroup ?ct)] => set (tokens := ct) end.
  destruct (present (fontFamilyGroup tokens) || present (styleGroup tokens)) eqn:Hp;
    [|done].
  intros [= <-]. split; [|split].
  - subst tokens. cbn [fontFamilyGroup].
    destruct (uniqueFamilies (x :: l)) as [|f fs] eqn:Hu; [done|].
    intros [= Hempty].
    pose proof (forEachAssign_pos
                  (fun index f => (familyName index f, FontFamilyToken f))
                  (uniqueFamilies (x :: l))) as Hpos.
    unfold exportFontFamilies in Hempty. rewrite Hempty, map_size_empty, Hu in Hpos.
    specialize (Hpos ltac:(done)). lia.
  - apply nonEmpty_not_empty.
  - apply orb_true_iff in Hp as [Hp|Hp]; apply present_is_Some in Hp; auto.
Qed.

Lemma exportBorders_Some borders t :
  exportBorders borders = Some t ->
  widthGroup t <> Some ∅ /\ colorGroup t <> Some ∅ /\
  (is_Some (widthGroup t) \/ is_Some (colorGroup t)).
Proof.
  unfold exportBorders. destruct borders as [c|]; [|done].
  destruct (combinations c) as [[|x l]|]; [done| |done].
  match goal with |- context [present (widthGroup ?ct)] => set (tokens := ct) end.
  destruct (present (widthGroup tokens) || present (colorGroup tokens)) eqn:Hp;
    [|done].
  intros [= <-]. split; [|split]; try apply nonEmpty_not_empty.
  apply orb_true_iff in Hp as [Hp|Hp]; apply present_is_Some in Hp; auto.
Qed.

Lemma exportSpacing_Some spacing : exportSpacing spacing <> Some ∅.
Proof.
  rewrite exportSpacing_eq. destruct (spacing ≫= commonValues); [|done].
  apply nonEmpty_not_empty.
Qed.

Lemma exportBorderRadius_Some borderRadius :
  exportBorderRadius borderRadius <> Some ∅.
Proof.
  rewrite exportBorderRadius_eq. destruct (borderRadius ≫= values); [|done].
  apply nonEmpty_not_empty.
Qed.

Lemma exportShadows_Some shadows : exportShadows shadows <> Some ∅.
Proof.
  rewrite exportShadows_eq. destruct shadows; [|done]. apply nonEmpty_not_empty.
Qed.

(** An exporter returned an object exactly when it returned a token. *)
Lemma colorTokenCount_pos colors :
  is_Some (exportColors colors) <-> (0 < colorTokenCount (exportColors colors))%nat.
Proof.
  destruct (exportColors colors) as [t|] eqn:He; cbn; [|split; [by intros []|lia]].
  split; [intros _|done].
  destruct (exportColors_Some _ _ He) as (Hs & Hp & [Hg|Hg]).
  - pose proof (groupSize_pos _ Hs Hg). lia.
  - pose proof (groupSize_pos _ Hp Hg). lia.
Qed.

Lemma typographyTokenCount_pos typography :
  is_Some (exportTypography typography) <->
  (0 < typographyTokenCount (exportTypography typography))%nat.
Proof.
  destruct (exportTypography typography) as [t|] eqn:He; cbn;
    [|split; [by intros []|lia]].
  split; [intros _|done].
  destruct (exportTypography_Some _ _ He) as (Hs & Hp & [Hg|Hg]).
  - pose proof (groupSize_pos _ Hs Hg). lia.
  - pose proof (groupSize_pos _ Hp Hg). lia.
Qed.

Lemma borderTokenCount_pos borders :
  is_Some (exportBorders borders) <->
  (0 < borderTokenCount (exportBorders borders))%nat.
Proof.
  destruct (exportBorders borders) as [t|] eqn:He; cbn;
    [|split; [by intros []|lia]].
  split; [intros _|done].
  destruct (exportBorders_Some _ _ He) as (Hs & Hp & [Hg|Hg]).
  - pose proof (groupSize_pos _ Hs Hg). lia.
  - pose proof (groupSize_pos _ Hp Hg). lia.
Qed.

Lemma groupSize_pos_iff (o : option Tokens) :
  o <> Some ∅ -> (is_Some o <-> (0 < groupSize o)%nat).
Proof.
  intros Hne. split; [by apply groupSize_pos|].
  destruct o; cbn; [eauto|lia].
Qed.

(** [toW3CFormat] returns unless [new URL] throws. *)
Lemma toW3CFormat_returns r :
  (truthyOpt (url r) = None \/
   exists u h, truthyOpt (url r) = Some u /\ hostname u = Some h) ->
  is_Some (toW3CFormat r).
Proof.
  unfold toW3CFormat. intros [->|(u & h & -> & Hh)]; [by eexists|].
  rewrite Hh. by eexists.
Qed.

Lemma toW3CFormat_fields r out :
  toW3CFormat r = Some out ->
  colorField out = exportColors (resultColors r) /\
  typographyField out = exportTypography (resultTypography r) /\
  spacingField out = exportSpacing (resultSpacing r) /\
  radiusField out = exportBorderRadius (resultBorderRadius r) /\
  borderField out = exportBorders (resultBorders r) /\
  shadowField out = exportShadows (resultShadows r).
Proof.
  unfold toW3CFormat.
  destruct (match truthyOpt (url r) with Some _ => _ | None => _ end); [|done].
  by intros [= <-].
Qed.

(** X1.  A category in which nothing qualifies is given no object: a
    missing or empty list, or (palette without semantic colours, border
    radius, borders, shadows) a list whose entries are all of low
    confidence. *)
Lemma nothing_qualifies :
  (forall c, palette c = None \/ palette c = Some [] ->
     exportColors (Some c) = None) /\
  (forall c pal, palette c = Some pal -> filter notLow pal = [] ->
     semantic c = None -> exportColors (Some c) = None) /\
  (forall t, styles t = None \/ styles t = Some [] ->
     exportTypography (Some t) = None) /\
  (forall s, commonValues s = None \/ commonValues s = Some [] ->
     exportSpacing (Some s) = None) /\
  (forall b l, values b = Some l -> filter notLow l = [] ->
     exportBorderRadius (Some b) = None) /\
  (forall b l, combinations b = Some l -> filter notLow l = [] ->
     exportBorders (Some b) = None) /\
  (forall l, filter notLow l = [] -> exportShadows (Some l) = None).
Proof.
  repeat split.
  - intros c [Hp|Hp]; unfold exportColors; by rewrite Hp.
  - intros c pal Hp Hf Hs. unfold exportColors. rewrite Hp, Hs.
    destruct pal; [done|]. unfold exportPalette, paletteKept. by rewrite Hf.
  - intros t [Hp|Hp]; unfold exportTypography; by rewrite Hp.
  - intros s [Hp|Hp]; unfold exportSpacing; by rewrite Hp.
  - intros b l Hv Hf. unfold exportBorderRadius. rewrite Hv.
    destruct l; [done|]. unfold exportRadiusTokens, radiusKept. by rewrite Hf.
  - intros b l Hv Hf. unfold exportBorders. rewrite Hv.
    destruct l; [done|]. unfold collectBorders, bordersKept. by rewrite Hf.
  - intros l Hf. unfold exportShadows.
    destruct l; [done|]. unfold exportShadowTokens, shadowsKept. by rewrite Hf.
Qed.

(** C5.  In what [toW3CFormat] returns, each category field holds what the
    exporter of the category returned, and it is present if and only if
    that exporter returned at least one token.  A field that is present is
    not an empty object and has no empty group; [nothing_qualifies] lists
    the inputs in which nothing qualifies, for which the exporter returns
    nothing and the field is absent. *)
Theorem field_present_iff_tokens (r : ExtractionResult) (out : W3CTokens) :
  toW3CFormat r = Some out ->
  (colorField out = exportColors (resultColors r) /\
   (is_Some (colorField out) <->
      (0 < colorTokenCount (exportColors (resultColors r)))%nat) /\
   (forall t, colorField out = Some t ->
      semanticGroup t <> Some ∅ /\ paletteGroup t <> Some ∅ /\
      (is_Some (semanticGroup t) \/ is_Some (paletteGroup t)))) /\
  (typographyField out = exportTypography (resultTypography r) /\
   (is_Some (typographyField out) <->
      (0 < typographyTokenCount (exportTypography (resultTypography r)))%nat) /\
   (forall t, typographyField out = Some t ->
      fontFamilyGroup t <> Some ∅ /\ styleGroup t <> Some ∅ /\
      (is_Some (fontFamilyGroup t) \/ is_Some (styleGroup t)))) /\
  (spacingField out = exportSpacing (resultSpacing r) /\
   (is_Some (spacingField out) <->
      (0 < groupSize (exportSpacing (resultSpacing r)))%nat) /\
   spacingField out <> Some ∅) /\
  (radiusField out = exportBorderRadius (resultBorderRadius r) /\
   (is_Some (radiusField out) <->
      (0 < groupSize (exportBorderRadius (resultBorderRadius r)))%nat) /\
   radiusField out <> Some ∅) /\
  (borderField out = exportBorders (resultBorders r) /\
   (is_Some (borderField out) <->
      (0 < borderTokenCount (exportBorders (resultBorders r)))%nat) /\
   (forall t, borderField out = Some t ->
      widthGroup t <> Some ∅ /\ colorGroup t <> Some ∅ /\
      (is_Some (widthGroup t) \/ is_Some (colorGroup t)))) /\
  (shadowField out = exportShadows (resultShadows r) /\
   (is_Some (shadowField out) <->
      (0 < groupSize (exportShadows (resultShadows r)))%nat) /\
   shadowField out <> Some ∅).
Proof.
  intros (Hc & Ht & Hs & Hr & Hb & Hh)%toW3CFormat_fields.
  rewrite Hc, Ht, Hs, Hr, Hb, Hh.
  split; [|split; [|split; [|split; [|split]]]].
  - split; [done|]. split; [apply colorTokenCount_pos|apply exportColors_Some].
  - split; [done|].
    split; [apply typographyTokenCount_pos|apply exportTypography_Some].
  - split; [done|].
    split; [apply groupSize_pos_iff|]; apply exportSpacing_Some.
  - split; [done|].
    split; [apply groupSize_pos_iff|]; apply exportBorderRadius_Some.
  - split; [done|]. split; [apply borderTokenCount_pos|apply exportBorders_Some].
  - split; [done|].
    split; [apply groupSize_pos_iff|]; apply exportShadows_Some.
Qed.

End ExporterProperties.

(** ** Slow mode *)

(** C8.  With [--slow] the multiplier is 3 and the navigation timeout, the
    hydration wait and the stabilization wait of the run are three times
    their constants; without it the multiplier is 1 and each is its
    constant. *)
Theorem slow_triples_the_waits (opts : CliOptions) :
  slow (extractOptions opts) = optSlow opts /\
  (optSlow opts = Some true ->
     timeoutMultiplier (extractOptions opts) = 3 /\
     navigation (timing (extractOptions opts)) = 3 * navigation baseTiming /\
     hydration (timing (extractOptions opts)) = 3 * hydration baseTiming /\
     stabilization (timing (extractOptions opts)) = 3 * stabilization baseTiming) /\
  (optSlow opts = Some false \/ optSlow opts = None ->
     timeoutMultiplier (extractOptions opts) = 1 /\
     timing (extractOptions opts) = baseTiming).
Proof.
  split; [done|]. unfold timing, timeoutMultiplier. cbn [slow extractOptions].
  split.
  - intros ->. by rewrite !(N.mul_comm _ 3).
  - intros [-> | ->]; by rewrite !N.mul_1_r.
Qed.

(** ** The properties on the sample inputs *)

(** In the sample palette purple comes before navy, and still does once
    the low-confidence white between them is dropped. *)
Lemma sample_order_kept :
  before brandPurple navy (filter notLow samplePalette) /\
  filter notLow samplePalette `sublist_of` samplePalette.
Proof.
  destruct (exclude_low_preserves_order samplePalette brandPurple navy)
    as (Hb & Hs & _).
  - vm_compute. discriminate.
  - vm_compute. discriminate.
  - exists [], [fillerWhite], []. reflexivity.
  - split; [exact Hb | exact Hs].
Defined.


(** The sample palette is within the cap, and navy, second of the entries
    kept, is the token named for rank two. *)
Lemma sample_palette_capped :
  (groupSize (exportColors (Some sampleColors) ≫= paletteGroup) <= 30)%nat /\
  exportPalette samplePalette !! (lit "palette-" ++ decimal (N.of_nat (1 + 1)))
    = Some (paletteToken 1 navy).2.
Proof.
  destruct caps_keep_a_prefix as ((Hc & _) & _ & (Hn & _) & _).
  split; [apply Hc|]. apply Hn. reflexivity.
Defined.


(** A three-digit hex colour and a named colour come out black. *)
Lemma shorthand_white_is_black :
  hexToW3CColor (lit "#fff") None =
    {| colorSpace := lit "srgb";
       components := [literal 0%Q; literal 0%Q; literal 0%Q];
       hex := lit "#000000";
       alpha := None |}.
Proof.
  apply (fallback_is_black (lit "#fff") None).
  - reflexivity.
  - reflexivity.
  - vm_compute. discriminate.
Defined.

Example named_red_is_black :
  hexToW3CColor (lit "red") None = black.
Proof. reflexivity. Qed.

(** The sample result: a colour field and a spacing field, and no field
    for the border radius, whose only entry is of low confidence, nor for
    the empty shadows. *)
Lemma sample_fields :
  exists out, toW3CFormat sampleResult = Some out /\
    is_Some (colorField out) /\ is_Some (spacingField out) /\
    typographyField out = None /\ radiusField out = None /\
    borderField out = None /\ shadowField out = None.
Proof.
  destruct (toW3CFormat_returns sampleResult) as [out Hout].
  { right. exists (lit "https://www.stripe.com/pricing"), (lit "www.stripe.com").
    split; reflexivity. }
  exists out. split; [exact Hout|].
  destruct (field_present_iff_tokens sampleResult out Hout)
    as ((_ & Hc & _) & (Ht & _) & (_ & Hs & _) & (Hr & _) & (Hb & _) & (Hh & _)).
  split; [apply Hc; vm_compute; lia|].
  split; [apply Hs; vm_compute; lia|].
  rewrite Ht, Hr, Hb, Hh. repeat split; reflexivity.
Defined.



(** Colours as the exporter writes them. *)
Example rgba_half_transparent :
  hexToW3CColor (lit "rgba(255, 128, 0, 0.5)") None =
    {| colorSpace := lit "srgb";
       components := [literal 1%Q; literal (502 # 1000)%Q; literal 0%Q];
       hex := lit "#ff8000";
       alpha := Some (literal (1 # 2)%Q) |}.
Proof. reflexivity. Qed.

Example hex_opaque :
  hexToW3CColor (lit "#0a2540") None =
    {| colorSpace := lit "srgb";
       components := [literal (39 # 1000)%Q; literal (145 # 1000)%Q;
                      literal (251 # 1000)%Q];
       hex := lit "#0a2540";
       alpha := None |}.
Proof. reflexivity. Qed.

(** The sample palette gives two tokens, numbered in rank order. *)
Example sample_palette_tokens :
  size (exportPalette samplePalette) = 2%nat /\
  exportPalette samplePalette !! lit "palette-2" =
    Some (ColorToken
            {| colorSpace := lit "srgb";
               components := [literal (39 # 1000)%Q; literal (145 # 1000)%Q;
                              literal (251 # 1000)%Q];
               hex := lit "#0a2540";
               alpha := None |}
            (Some (lit "Count: 9, Confidence: medium"))).
Proof. split; reflexivity. Qed.

(** * Further properties *)

(** ** Strings and matchers *)

Lemma startsWith_prefix (p s : list N) :
  startsWith p s = true <-> exists r, s = p ++ r.
Proof.
  revert s. induction p as [|a p IH]; intros s; cbn.
  - split; [eauto|done].
  - destruct s as [|b s]; [split; [done|by intros [r Hr]]|].
    rewrite andb_true_iff, N.eqb_eq, IH. split.
    + intros [-> [r ->]]. eauto.
    + intros [r [= -> ->]]. eauto.
Qed.

Lemma startsWith_app (p s : list N) : startsWith p (p ++ s) = true.
Proof. apply startsWith_prefix. eauto. Qed.

Lemma span_app f (s : list N) : (span f s).1 ++ (span f s).2 = s.
Proof.
  induction s as [|c s IH]; cbn; [done|].
  destruct (f c); [|done]. destruct (span f s) as [a b]. cbn in *. by rewrite IH.
Qed.

Lemma span_fst_forallb f (s : list N) : forallb f (span f s).1 = true.
Proof.
  induction s as [|c s IH]; cbn; [done|].
  destruct (f c) eqn:Hc; [|done]. destruct (span f s) as [a b]. cbn in *.
  by rewrite Hc.
Qed.

Lemma span_all f (s : list N) : forallb f s = true -> span f s = (s, []).
Proof.
  induction s as [|c s IH]; cbn; [done|].
  intros [Hc Hs]%andb_true_iff. by rewrite Hc, IH.
Qed.

Lemma span_stop f (s : list N) c t :
  forallb f s = true -> f c = false -> span f (s ++ c :: t) = (s, c :: t).
Proof.
  intros Hs Hc. induction s as [|x s IH]; cbn in *; [by rewrite Hc|].
  apply andb_true_iff in Hs as [Hx Hs]. by rewrite Hx, IH.
Qed.

Lemma skip_length f (s : list N) : (length (skip f s) <= length s)%nat.
Proof.
  unfold skip. rewrite <- (span_app f s) at 2. rewrite length_app. lia.
Qed.

Lemma not_elem_forallb (c : N) (s : list N) :
  c ∉ s -> forallb (fun x => negb (x =? c)) s = true.
Proof.
  induction s as [|x s IH]; [done|].
  intros [Hne Hs]%not_elem_of_cons. cbn. rewrite IH by done.
  by destruct (N.eqb_spec x c) as [->|].
Qed.

Lemma beforeFirst_absent c (s : list N) : c ∉ s -> beforeFirst c s = s.
Proof.
  intros Hs. unfold beforeFirst. by rewrite span_all by by apply not_elem_forallb.
Qed.

Lemma beforeFirst_cut c (s t : list N) :
  c ∉ s -> beforeFirst c (s ++ c :: t) = s.
Proof.
  intros Hs. unfold beforeFirst. rewrite span_stop; [done| |].
  - by apply not_elem_forallb.
  - by rewrite N.eqb_refl.
Qed.

(** What a matcher consumes. *)

Lemma expect_length c (s r : list N) :
  expect c s = Some r -> length s = S (length r).
Proof. destruct s as [|x s]; cbn; [done|]. by destruct (x =? c); intros [= ->]. Qed.

Lemma expectStr_length (p s r : list N) :
  expectStr p s = Some r -> length s = (length p + length r)%nat.
Proof.
  unfold expectStr. destruct (startsWith p s) eqn:Hp; [|done]. intros [= <-].
  apply startsWith_prefix in Hp as [t ->].
  by rewrite drop_app_length, length_app.
Qed.

Lemma some_of_length f (s a r : list N) :
  some_of f s = Some (a, r) ->
  length s = (length a + length r)%nat /\ (1 <= length a)%nat.
Proof.
  unfold some_of. pose proof (span_app f s) as Happ.
  destruct (span f s) as [[|x a'] b]; [done|]. intros [= <- <-].
  cbn in *. rewrite <- Happ. cbn. rewrite length_app. lia.
Qed.

Lemma commaChannel_length (s a r : list N) :
  commaChannel s = Some (a, r) -> (length r + 2 <= length s)%nat.
Proof.
  unfold commaChannel. destruct (expect 44 s) as [s'|] eqn:He; [|done]. cbn.
  intros [Hl Ha]%some_of_length. apply expect_length in He.
  pose proof (skip_length isSpace s'). lia.
Qed.

Lemma rgbAt_length (s : list N) m : rgbAt s = Some m -> (10 <= length s)%nat.
Proof.
  unfold rgbAt.
  destruct (expectStr (lit "rgb(") s) as [s1|] eqn:H1; [|done]. cbn.
  destruct (some_of isDigit s1) as [[r s2]|] eqn:H2; [|done]. cbn.
  destruct (commaChannel s2) as [[g s3]|] eqn:H3; [|done]. cbn.
  destruct (commaChannel s3) as [[b s4]|] eqn:H4; [|done]. cbn.
  destruct (expect 41 s4) as [s5|] eqn:H5; [|done]. intros _.
  apply expectStr_length in H1. apply some_of_length in H2 as [H2 ?].
  apply commaChannel_length in H3, H4. apply expect_length in H5.
  change (length (lit "rgb(")) with 4%nat in H1. lia.
Qed.

Lemma rgbaAt_length (s : list N) m : rgbaAt s = Some m -> (10 <= length s)%nat.
Proof.
  unfold rgbaAt.
  destruct (expectStr (lit "rgb") s) as [s1|] eqn:H1; [|done]. cbn.
  assert (length (default s1 (expect 97 s1)) <= length s1)%nat as Ha.
  { destruct (expect 97 s1) as [s'|] eqn:He; cbn; [|lia].
    apply expect_length in He. lia. }
  revert Ha. generalize (default s1 (expect 97 s1)). intros s1' Ha.
  destruct (expect 40 s1') as [s2|] eqn:H2; [|done]. cbn.
  destruct (some_of isDigit s2) as [[r s3]|] eqn:H3; [|done]. cbn.
  destruct (commaChannel s3) as [[g s4]|] eqn:H4; [|done]. cbn.
  destruct (commaChannel s4) as [[b s5]|] eqn:H5; [|done]. cbn.
  apply expectStr_length in H1. apply expect_length in H2.
  apply some_of_length in H3 as [H3 ?].
  apply commaChannel_length in H4, H5.
  change (length (lit "rgb")) with 3%nat in H1.
  destruct (expect 44 s5) as [s6|] eqn:H6; cbn.
  - apply expect_length in H6.
    destruct (some_of _ (skip isSpace s6)) as [[a s7]|]; cbn; [|];
      repeat case_match; intros; lia.
  - destruct (expect 41 s5) as [s6|] eqn:H7; [|done].
    apply expect_length in H7. intros _. lia.
Qed.

Lemma search_length {A} (m : list N -> option A) (n : nat) (s : list N) x :
  (forall t y, m t = Some y -> (n <= length t)%nat) ->
  search m s = Some x -> (n <= length s)%nat.
Proof.
  intros Hm. induction s as [|c s IH]; cbn.
  - destruct (m []) eqn:He; [|done]. intros _. by apply Hm in He.
  - destruct (m (c :: s)) eqn:He; [intros _; by apply Hm in He|].
    intros Hs%IH. cbn. lia.
Qed.

Lemma padStart2_length (s : list N) : (2 <= length (padStart2 s))%nat.
Proof. destruct s as [|a [|b s]]; cbn; lia. Qed.

(** ** Colours *)

Section MoreColours.
Context `{JSNumber}.

(** An rgb() or rgba() colour has at least ten characters: a shorter
    string goes to the hexadecimal branch. *)
Lemma short_has_no_rgb (color : list N) :
  (length color < 10)%nat -> rgbaMatch color = None /\ rgbMatch color = None.
Proof.
  intros Hl. unfold rgbaMatch, rgbMatch. split.
  - destruct (includes _ _); [|done].
    destruct (search rgbaAt color) as [m|] eqn:Hs; [|done].
    apply (search_length _ 10) in Hs; [lia|]. apply rgbaAt_length.
  - destruct (includes _ _); [|done].
    destruct (search rgbAt color) as [m|] eqn:Hs; [|done].
    apply (search_length _ 10) in Hs; [lia|]. apply rgbAt_length.
Qed.

Lemma rgbResult_shape m a :
  colorSpace (rgbResult m a) = lit "srgb" /\
  length (components (rgbResult m a)) = 3%nat /\
  exists h, hex (rgbResult m a) = 35 :: h /\ (6 <= length h)%nat.
Proof.
  split; [done|]. split; [done|]. eexists. split; [done|].
  rewrite !length_app.
  pose proof (padStart2_length (numToString (parseInt (red m) None) (Some 16%Z))).
  pose proof (padStart2_length (numToString (parseInt (green m) None) (Some 16%Z))).
  pose proof (padStart2_length (numToString (parseInt (blue m) None) (Some 16%Z))).
  lia.
Qed.

(** X2.  Every colour the exporter writes has the same shape, whatever
    the input string: the colour space is [srgb], there are three
    components, and [hex] is [#] followed by at least six characters.  So
    the [dtcg/color/hex] transform of the Style Dictionary configuration
    always finds a [hex] and returns it, never the object. *)
Theorem every_colour_has_a_hex (color : list N) (a : option num) :
  colorSpace (hexToW3CColor color a) = lit "srgb" /\
  length (components (hexToW3CColor color a)) = 3%nat /\
  (exists h, hex (hexToW3CColor color a) = 35 :: h /\ (6 <= length h)%nat) /\
  colorHexTransform (hexToW3CColor color a) = inl (hex (hexToW3CColor color a)).
Proof.
  assert (colorSpace (hexToW3CColor color a) = lit "srgb" /\
          length (components (hexToW3CColor color a)) = 3%nat /\
          exists h, hex (hexToW3CColor color a) = 35 :: h /\ (6 <= length h)%nat)
    as (Hs & Hc & h & Hh & Hl).
  { unfold hexToW3CColor.
    destruct (rgbaMatch color) as [m|]; [apply rgbResult_shape|].
    destruct (rgbMatch color) as [m|]; [apply rgbResult_shape|].
    destruct (length (replace (lit "#") [] color) =? 6)%nat eqn:Hlen; cbn.
    - apply Nat.eqb_eq in Hlen. split; [done|]. split; [done|].
      eexists. split; [done|]. lia.
    - split; [done|]. split; [done|]. exists (lit "000000"). by split. }
  split; [done|]. split; [done|]. split; [eauto|].
  unfold colorHexTransform. by rewrite Hh.
Qed.

(** X3.  A string of [#] and six more characters is read as a hexadecimal
    colour whatever the six characters are: they come back unchanged as
    [hex] (no check that they are hexadecimal digits, no change of case),
    and each pair of them, read in base 16 and divided by 255, gives a
    component. *)
Theorem six_characters_are_the_hex (h : list N) (a : option num) :
  length h = 6%nat ->
  hexToW3CColor (35 :: h) a =
    {| colorSpace := lit "srgb";
       components :=
         [round3 (div (parseInt (take 2 h) (Some 16%Z)) (literal 255%Q));
          round3 (div (parseInt (take 2 (drop 2 h)) (Some 16%Z)) (literal 255%Q));
          round3 (div (parseInt (take 2 (drop 4 h)) (Some 16%Z)) (literal 255%Q))];
       hex := 35 :: h;
       alpha := alphaField (default (literal 1%Q) a) |}.
Proof.
  intros Hl. unfold hexToW3CColor.
  destruct (short_has_no_rgb (35 :: h)) as [-> ->]; [cbn; lia|].
  change (replace (lit "#") [] (35 :: h)) with h.
  by rewrite Hl.
Qed.

End MoreColours.

(** The brand purple of the samples, read pair by pair. *)
Lemma six_characters_purple :
  hex (hexToW3CColor (lit "#635bff") None) = lit "#635bff" /\
  components (hexToW3CColor (lit "#635bff") None) =
    [literal (388 # 1000)%Q; literal (357 # 1000)%Q; literal 1%Q].
Proof.
  rewrite (six_characters_are_the_hex (lit "635bff") None eq_refl).
  split; reflexivity.
Defined.

(** ** Dimensions *)

Lemma dimensionRe_unit (s n u : list N) :
  dimensionRe s = Some (n, u) -> forallb unitChar u = true.
Proof.
  unfold dimensionRe.
  destruct (some_of _ s) as [[n' s']|]; [|done]. cbn.
  pose proof (span_fst_forallb (fun c => isAsciiLetter c || (c =? 37))
                (skip isSpace s')) as Hu.
  destruct (span _ (skip isSpace s')) as [u' r]. destruct r; [|done].
  by intros [= _ <-].
Qed.

Section MoreDimensions.
Context `{JSNumber}.

(** X4.  Every dimension the exporter writes has a unit: a run of ASCII
    letters and [%] that is never empty.  It is [px], unless the input is
    a string whose part before any parenthesis, trimmed, matches the
    pattern with a unit of its own, which is then the unit. *)
Theorem dimension_has_a_unit (value : DimensionInput) :
  truthyStr (dimUnit (toW3CDimension value)) = true /\
  forallb unitChar (dimUnit (toW3CDimension value)) = true /\
  (dimUnit (toW3CDimension value) = lit "px" \/
   exists s n, value = Plain (Str s) /\
     dimensionRe (trim (beforeFirst 40 s))
       = Some (n, dimUnit (toW3CDimension value))).
Proof.
  destruct value as [[s|n]|[px|]]; cbn; try by auto.
  destruct (dimensionRe _) as [[n u]|] eqn:Hre; [|by auto]. cbn.
  apply dimensionRe_unit in Hre as Hu.
  destruct u as [|c u]; [by auto|]. cbn [orStr truthyStr].
  split; [done|]. split; [done|]. right. eauto.
Qed.

(** X5.  What follows an opening parenthesis is ignored: a string such as
    [16px (1.00rem)] converts like its part before the parenthesis,
    provided that part is a dimension the pattern matches. *)
Theorem parenthesis_is_ignored (s t : list N) :
  40 ∉ s -> is_Some (dimensionRe (trim s)) ->
  toW3CDimension (Plain (Str (s ++ 40 :: t))) = toW3CDimension (Plain (Str s)).
Proof.
  intros Hs [[n u] Hre]. cbn.
  by rewrite beforeFirst_cut, beforeFirst_absent, Hre by done.
Qed.

End MoreDimensions.

(** The example of the source: sixteen pixels, with the size in rem in
    parentheses. *)
Lemma parenthesis_sixteen_pixels :
  toW3CDimension (Plain (Str (lit "16px (1.00rem)"))) =
    toW3CDimension (Plain (Str (lit "16px "))) /\
  toW3CDimension (Plain (Str (lit "16px "))) =
    {| dimValue := Num (literal 16%Q); dimUnit := lit "px" |}.
Proof.
  split; [|reflexivity].
  apply (parenthesis_is_ignored (lit "16px ") (lit "1.00rem)")).
  - apply (bool_decide_unpack _). vm_compute. exact I.
  - vm_compute. eauto.
Defined.

(** ** Token names *)

Lemma hyphenateRuns_clean inRun (s : list N) :
  forallb (fun c => negb ((c =? 123) || (c =? 125) || (c =? 46))) s = true ->
  forallb tokenNameChar (hyphenateRuns inRun s) = true.
Proof.
  revert inRun. induction s as [|c s IH]; intros inRun; cbn; [done|].
  intros [Hc Hs]%andb_true_iff.
  destruct (isSpace c) eqn:Hsp.
  - destruct inRun; cbn; auto.
  - cbn. rewrite IH by done. unfold tokenNameChar. rewrite Hsp.
    rewrite orb_false_r. by rewrite Hc.
Qed.

Section MoreNames.
Context `{JSHost}.

(** X6.  What a sanitised name is free of, and what it is not.  It holds
    none of [{], [}] and [.] and no white space, given that lower-casing,
    which comes last, brings none of them in.  But it may begin with [$]:
    only one leading [$] is removed, so a name that begins with two keeps
    the second (lower-casing leaving a leading [$] in place). *)
Theorem sanitized_name_is_clean (name : list N) :
  (forall s, forallb tokenNameChar s = true ->
             forallb tokenNameChar (toLowerCase s) = true) ->
  (forall s, toLowerCase (36 :: s) = 36 :: toLowerCase s) ->
  forallb tokenNameChar (sanitizeTokenName name) = true /\
  sanitizeTokenName (36 :: 36 :: name) = 36 :: sanitizeTokenName (36 :: name).
Proof.
  intros Hlower Hdollar. split.
  - unfold sanitizeTokenName. apply Hlower, hyphenateRuns_clean.
    generalize (match name with 36 :: rest => rest | _ => name end).
    intros s. induction s as [|c s IH]; cbn; [done|]. rewrite IH, andb_true_r.
    destruct ((c =? 123) || (c =? 125) || (c =? 46)) eqn:Hc; [done|].
    by rewrite Hc.
  - unfold sanitizeTokenName. cbn. by rewrite Hdollar.
Qed.

End MoreNames.

Lemma lowerAscii_clean (s : list N) :
  forallb tokenNameChar s = true ->
  forallb tokenNameChar (lowerAscii s) = true.
Proof.
  unfold lowerAscii. induction s as [|c s IH]; cbn; [done|].
  intros [Hc Hs]%andb_true_iff. apply andb_true_iff. split; [|by apply IH].
  destruct ((65 <=? c) && (c <=? 90)) eqn:Hup; [|done].
  apply andb_true_iff in Hup as [H1%N.leb_le H2%N.leb_le].
  clear -H1 H2. unfold tokenNameChar, isSpace.
  repeat match goal with
         | |- context [?a <=? ?b] => destruct (N.leb_spec a b); [|try lia]
         | |- context [?a =? ?b] => destruct (N.eqb_spec a b); [try lia|]
         end; cbn; try done; lia.
Qed.

(** A name with a brace, a dot and two spaces. *)
Lemma sanitized_brand_name :
  forallb tokenNameChar (sanitizeTokenName (lit "Brand {v1.2}  Primary")) = true /\
  sanitizeTokenName (36 :: 36 :: lit "Brand {v1.2}  Primary")
    = 36 :: sanitizeTokenName (36 :: lit "Brand {v1.2}  Primary").
Proof.
  apply (sanitized_name_is_clean (lit "Brand {v1.2}  Primary")).
  - exact lowerAscii_clean.
  - intros s. reflexivity.
Defined.

Example sanitized_names :
  sanitizeTokenName (lit "$Brand {v1.2}  Primary") = lit "brand--v1-2--primary" /\
  sanitizeTokenName (lit "$$brand") = lit "$brand".
Proof. split; reflexivity. Qed.

(** ** Objects filled by assignment: what stays and what is overwritten *)

Section MoreObjects.
Context {V : Type}.
Implicit Types (o : gmap (list N) V) (l : list (list N * V)).



(** The last assignment to a key is the one that stays. *)
Lemma foldl_assign_last o l i k v :
  l !! i = Some (k, v) ->
  (forall j kv, (i < j)%nat -> l !! j = Some kv -> kv.1 <> k) ->
  foldl assign o l !! k = Some v.
Proof.
  revert o i. induction l as [|kv l IH]; intros o i Hi Hlast; [done|].
  destruct i as [|i]; cbn in *.
  - injection Hi as ->. rewrite lookup_foldl_assign_other.
    + unfold assign. cbn. apply lookup_insert_eq.
    + intros Hin. apply list_elem_of_fmap in Hin as (kv & -> & Hin).
      apply list_elem_of_lookup in Hin as [j Hj].
      by apply (Hlast (S j) kv); [lia|done|].
  - apply (IH _ i); [done|]. intros j kv' Hij Hj.
    apply (Hlast (S j)); [lia|done].
Qed.

(** An assignment to a key the object has adds nothing. *)
Lemma size_foldl_assign_present o l j k v :
  is_Some (o !! k) -> l !! j = Some (k, v) ->
  (size (foldl assign o l) < size o + length l)%nat.
Proof.
  revert o j. induction l as [|kv l IH]; intros o j Hk Hj; [done|].
  destruct j as [|j]; cbn in *.
  - injection Hj as ->. pose proof (size_foldl_assign (assign o (k, v)) l) as Hs.
    unfold assign in *. cbn in *. rewrite map_size_insert in Hs.
    destruct Hk as [x Hx]. rewrite Hx in Hs. cbn in Hs. lia.
  - pose proof (size_assign o kv).
    assert (is_Some (assign o kv !! k)) as Hk'.
    { unfold assign. rewrite lookup_insert_is_Some.
      destruct (decide (kv.1 = k)); auto. }
    specialize (IH (assign o kv) j Hk' Hj). lia.
Qed.

Lemma size_foldl_assign_repeat o l i j k v1 v2 :
  (i < j)%nat -> l !! i = Some (k, v1) -> l !! j = Some (k, v2) ->
  (size (foldl assign o l) < size o + length l)%nat.
Proof.
  revert o i j. induction l as [|kv l IH]; intros o i j Hij Hi Hj; [done|].
  destruct j as [|j]; [lia|]. destruct i as [|i]; cbn in *.
  - injection Hi as ->.
    pose proof (size_assign o (k, v1)).
    assert (is_Some (assign o (k, v1) !! k)) as Hk'.
    { unfold assign. cbn. rewrite lookup_insert_is_Some. auto. }
    pose proof (size_foldl_assign_present (assign o (k, v1)) l j k v2 Hk' Hj).
    lia.
  - pose proof (size_assign o kv).
    assert (i < j)%nat as Hij' by lia.
    specialize (IH (assign o kv) i j Hij' Hi Hj). lia.
Qed.

End MoreObjects.

Section MoreForEach.
Context {A V : Type}.
Implicit Types (f : nat -> A -> list N * V) (l : list A).


Lemma forEachAssign_last f l i x :
  l !! i = Some x ->
  (forall j y, (i < j)%nat -> l !! j = Some y -> (f j y).1 <> (f i x).1) ->
  forEachAssign f l !! (f i x).1 = Some (f i x).2.
Proof.
  intros Hi Hlast. apply (foldl_assign_last _ _ i).
  - rewrite list_lookup_imap, Hi. cbn. by rewrite <- surjective_pairing.
  - intros j kv Hij Hj. rewrite list_lookup_imap in Hj.
    destruct (l !! j) as [y|] eqn:Hy; [|done]. injection Hj as <-.
    by apply Hlast.
Qed.

Lemma size_forEachAssign_repeat f l i j x y :
  (i < j)%nat -> l !! i = Some x -> l !! j = Some y ->
  (f i x).1 = (f j y).1 ->
  (size (forEachAssign f l) < length l)%nat.
Proof.
  intros Hij Hi Hj Heq.
  pose proof (size_foldl_assign_repeat (V:=V) ∅ (imap f l) i j
                (f i x).1 (f i x).2 (f j y).2 Hij) as Hs.
  rewrite map_size_empty, length_imap in Hs. apply Hs.
  - rewrite list_lookup_imap, Hi. cbn. by rewrite <- surjective_pairing.
  - rewrite list_lookup_imap, Hj. cbn. rewrite Heq. by rewrite <- surjective_pairing.
Qed.

End MoreForEach.

(** ** Typography *)


Section MoreTypography.
Context `{JSNumber} `{JSHost}.







End MoreTypography.

Section MoreTextStyles.
Context `{JSNumber} `{JSHost}.

(** X9.  Text styles are named by their context, so two styles with the
    same name leave one token: the later style overwrites the earlier one,
    whatever their ranks, and the group holds fewer tokens than there are
    styles. *)
Theorem same_name_later_style_wins (l : list TypographyStyle) (i j : nat)
    (a b : TypographyStyle) :
  (i < j)%nat ->
  stylesKept l !! i = Some a -> stylesKept l !! j = Some b ->
  (styleToken i a).1 = (styleToken j b).1 ->
  (forall k c, (j < k)%nat -> stylesKept l !! k = Some c ->
     (styleToken k c).1 <> (styleToken j b).1) ->
  exportTextStyles l !! (styleToken i a).1 = Some (styleToken j b).2 /\
  (size (exportTextStyles l) < length (stylesKept l))%nat.
Proof.
  intros Hij Hi Hj Heq Hlast. split.
  - rewrite Heq. by apply forEachAssign_last.
  - by apply (size_forEachAssign_repeat styleToken (stylesKept l) i j a b).
Qed.

End MoreTextStyles.



(** Two headings, one token: that of the second. *)
Lemma two_headings_one_token :
  exportTextStyles [headingLarge; headingSmall] !! lit "text-heading"
    = Some (styleToken 1 headingSmall).2 /\
  (size (exportTextStyles [headingLarge; headingSmall]) < 2)%nat.
Proof.
  refine (same_name_later_style_wins [headingLarge; headingSmall] 0 1
            headingLarge headingSmall _ eq_refl eq_refl eq_refl _).
  - lia.
  - intros [|[|k]] c Hk Hc; [lia|lia|discriminate].
Defined.

(** ** Semantic colours *)

Section MoreSemantic.
Context `{JSNumber} `{JSHost}.

Lemma foldl_semantic (entries : list (list N * SemanticColor)) (o : Tokens)
    (k : list N) :
  let r := foldl (fun semantic kv =>
                    match semanticValue kv.2 with
                    | Some colorValue =>
                        <[sanitizeTokenName kv.1 :=
                            ColorToken (hexToW3CColor colorValue None) None]> semantic
                    | None => semantic
                    end) o entries in
  (is_Some (r !! k) <->
     is_Some (o !! k) \/
     exists key value c, (key, value) ∈ entries /\
       semanticValue value = Some c /\ sanitizeTokenName key = k) /\
  (forall tok, r !! k = Some tok ->
     o !! k = Some tok \/
     exists key value c, (key, value) ∈ entries /\
       semanticValue value = Some c /\ sanitizeTokenName key = k /\
       tok = ColorToken (hexToW3CColor c None) None).
Proof.
  revert o. induction entries as [|[key value] entries IH]; intros o; cbn.
  - split.
    + split; [auto|]. intros [?|(? & ? & ? & Hin & _)]; [done|].
      by apply elem_of_nil in Hin.
    + auto.
  - destruct (semanticValue value) as [c|] eqn:Hv.
    + destruct (IH (<[sanitizeTokenName key :=
                       ColorToken (hexToW3CColor c None) None]> o)) as [Hdom Hval].
      split.
      * rewrite Hdom, lookup_insert_is_Some. split.
        -- intros [[<-|[_ ?]]|(key' & value' & c' & Hin & ? & ?)].
           ++ right. exists key, value, c. split; [left|done].
           ++ by left.
           ++ right. exists key', value', c'. split; [by right|done].
        -- intros [Ho|(key' & value' & c' & Hin & Hv' & Hk)].
           ++ left. destruct (decide (sanitizeTokenName key = k)); auto.
           ++ apply elem_of_cons in Hin as [[= -> ->]|Hin]; [by left; left|].
              right. eauto 6.
      * intros tok [Ho|(key' & value' & c' & Hin & ? & ? & ?)]%Hval.
        -- apply lookup_insert_Some in Ho as [[<- <-]|[_ Ho]]; [|by left].
           right. exists key, value, c. split; [left|done].
        -- right. exists key', value', c'. split; [by right|done].
    + destruct (IH o) as [Hdom Hval]. split.
      * rewrite Hdom. split.
        -- intros [?|(key' & value' & c' & Hin & ? & ?)]; [by left|].
           right. exists key', value', c'. split; [by right|done].
        -- intros [?|(key' & value' & c' & Hin & Hv' & Hk)]; [by left|].
           apply elem_of_cons in Hin as [[= -> ->]|Hin]; [congruence|].
           right. eauto 6.
      * intros tok [?|(key' & value' & c' & Hin & ? & ? & ?)]%Hval; [by left|].
        right. exists key', value', c'. split; [by right|done].
Qed.

(** X10.  Semantic colours are neither ranked nor capped, and nothing is
    dropped for its confidence: every entry of the mapping whose value is
    a colour string that is not empty, or an object with such a [color],
    has a token under its sanitised key, and every token is the colour of
    such an entry, without a description. *)
Theorem every_semantic_colour_gets_a_token
    (entries : list (list N * SemanticColor)) (k : list N) :
  (is_Some (exportSemantic entries !! k) <->
     exists key value c, (key, value) ∈ entries /\
       semanticValue value = Some c /\ sanitizeTokenName key = k) /\
  (forall tok, exportSemantic entries !! k = Some tok ->
     exists key value c, (key, value) ∈ entries /\
       semanticValue value = Some c /\ sanitizeTokenName key = k /\
       tok = ColorToken (hexToW3CColor c None) None).
Proof.
  destruct (foldl_semantic entries ∅ k) as [Hdom Hval]. split.
  - unfold exportSemantic. rewrite Hdom. split; [|auto].
    intros [Ho|?]; [|done]. rewrite lookup_empty in Ho. by destruct Ho.
  - intros tok [Ho|?]%Hval; [|done]. by rewrite lookup_empty in Ho.
Qed.

End MoreSemantic.

(** ** Borders: one token for each distinct value *)

Section MoreBorders.
Context `{JSNumber}.

Lemma numbered_empty (prefix : list N) (tok : list N -> Token) :
  numbered prefix tok ∅ ∅.
Proof.
  split; [by rewrite map_size_empty, size_empty|]. split; [|split].
  - intros k. rewrite lookup_empty, size_empty. split.
    + by intros [? ?].
    + intros (i & ? & _). lia.
  - intros w Hw. by apply not_elem_of_empty in Hw.
  - intros k t Hk. by rewrite lookup_empty in Hk.
Qed.

Lemma numbered_add (prefix : list N) (tok : list N -> Token) (m : Tokens)
    (seen : gset (list N)) (w : list N) :
  numbered prefix tok m seen -> w ∉ seen ->
  numbered prefix tok
    (<[prefix ++ decimal (N.of_nat (size seen + 1)) := tok w]> m)
    ({[w]} ∪ seen).
Proof.
  intros (Hsize & Hdom & Hmem & Hval) Hw.
  assert (size ({[w]} ∪ seen) = S (size seen)) as Hs.
  { rewrite size_union by by apply disjoint_singleton_l.
    rewrite size_singleton. lia. }
  assert (m !! (prefix ++ decimal (N.of_nat (size seen + 1))) = None) as Hfresh.
  { apply eq_None_not_Some. intros Hk. apply Hdom in Hk as (i & Hi & Heq).
    apply app_inv_head, decimal_inj in Heq. lia. }
  split; [|split; [|split]].
  - rewrite map_size_insert_None by done. lia.
  - intros k. rewrite lookup_insert_is_Some, Hs, Hdom. split.
    + intros [<-|[_ (i & Hi & ->)]].
      * exists (size seen + 1)%nat. split; [lia|done].
      * exists i. split; [lia|done].
    + intros (i & Hi & ->).
      destruct (decide (i = size seen + 1)%nat) as [->|Hne]; [by left|].
      right. split.
      * intros Heq. apply app_inv_head, decimal_inj in Heq. lia.
      * exists i. split; [lia|done].
  - intros w' Hw'. rewrite Hs. apply elem_of_union in Hw' as [Hw'|Hw'].
    + apply elem_of_singleton in Hw' as ->. exists (size seen + 1)%nat.
      split; [lia|]. apply lookup_insert_eq.
    + destruct (Hmem w' Hw') as (i & Hi & Hk). exists i. split; [lia|].
      rewrite lookup_insert_ne; [done|].
      intros Heq. apply app_inv_head, decimal_inj in Heq. lia.
  - intros k t [[_ <-]|[_ Hk]]%lookup_insert_Some.
    + exists w. split; [|done]. apply elem_of_union. left.
      by apply elem_of_singleton.
    + destruct (Hval k t Hk) as (w' & ? & ?). exists w'. split; [|done].
      apply elem_of_union. by right.
Qed.

(** The widths and colours a list of combinations holds. *)
Lemma addWidth_numbered acc combo :
  numbered (lit "border-width-") widthToken (widths acc) (seenWidths acc) ->
  numbered (lit "border-width-") widthToken
    (widths (addWidth acc combo)) (seenWidths (addWidth acc combo)) /\
  seenWidths (addWidth acc combo)
    = seenWidths acc ∪ list_to_set (option_list (truthyOpt (width combo))).
Proof.
  intros Hn. unfold addWidth.
  destruct (truthyOpt (width combo)) as [w|]; cbn;
    rewrite (right_id_L ∅ (∪)); [|done].
  case_decide as Hw; cbn.
  - split; [done|]. rewrite (comm_L (∪)). symmetry.
    by apply subseteq_union_1_L, singleton_subseteq_l.
  - split; [by apply numbered_add|apply (comm_L (∪))].
Qed.

Lemma addColor_numbered acc combo :
  numbered (lit "border-color-") borderColorToken (colors acc) (seenColors acc) ->
  numbered (lit "border-color-") borderColorToken
    (colors (addColor acc combo)) (seenColors (addColor acc combo)) /\
  seenColors (addColor acc combo)
    = seenColors acc ∪ list_to_set (option_list (truthyOpt (borderColor combo))).
Proof.
  intros Hn. unfold addColor.
  destruct (truthyOpt (borderColor combo)) as [c|]; cbn;
    rewrite (right_id_L ∅ (∪)); [|done].
  case_decide as Hc; cbn.
  - split; [done|]. rewrite (comm_L (∪)). symmetry.
    by apply subseteq_union_1_L, singleton_subseteq_l.
  - split; [by apply numbered_add|apply (comm_L (∪))].
Qed.

Lemma foldl_borderStep_numbered l acc :
  numbered (lit "border-width-") widthToken (widths acc) (seenWidths acc) ->
  numbered (lit "border-color-") borderColorToken (colors acc) (seenColors acc) ->
  let r := foldl borderStep acc l in
  numbered (lit "border-width-") widthToken (widths r) (seenWidths r) /\
  numbered (lit "border-color-") borderColorToken (colors r) (seenColors r) /\
  seenWidths r
    = seenWidths acc ∪ list_to_set (omap (fun c => truthyOpt (width c)) l) /\
  seenColors r
    = seenColors acc ∪ list_to_set (omap (fun c => truthyOpt (borderColor c)) l).
Proof.
  revert acc. induction l as [|combo l IH]; intros acc Hw Hc; cbn.
  { by rewrite !(right_id_L ∅ (∪)). }
  destruct (addWidth_numbered acc combo Hw) as [Hw1 Hsw].
  destruct (addWidth_spec acc combo) as (Hcol & Hsc & _).
  assert (numbered (lit "border-color-") borderColorToken
            (colors (addWidth acc combo)) (seenColors (addWidth acc combo))) as Hc1.
  { by rewrite Hcol, Hsc. }
  destruct (addColor_numbered (addWidth acc combo) combo Hc1) as [Hc2 Hsc2].
  destruct (addColor_spec (addWidth acc combo) combo) as (Hwid & Hsw2 & _).
  assert (numbered (lit "border-width-") widthToken
            (widths (borderStep acc combo)) (seenWidths (borderStep acc combo))) as Hw2.
  { unfold borderStep. by rewrite Hwid, Hsw2. }
  destruct (IH (borderStep acc combo) Hw2 Hc2) as (Hrw & Hrc & Hsrw & Hsrc).
  split; [done|]. split; [done|]. split.
  - rewrite Hsrw. unfold borderStep at 1. rewrite Hsw2, Hsw.
    destruct (truthyOpt (width combo)); cbn;
      by rewrite (right_id_L ∅ (∪)), ?(assoc_L (∪)).
  - rewrite Hsrc. unfold borderStep at 1. rewrite Hsc2, Hsc.
    destruct (truthyOpt (borderColor combo)); cbn;
      by rewrite (right_id_L ∅ (∪)), ?(assoc_L (∪)).
Qed.

(** X11.  The border exporter writes one width token for each distinct
    width among the combinations it reads (those not of low confidence,
    ten at most), and one colour token for each distinct colour: a value
    that comes again adds nothing.  The tokens are named
    [border-width-1] to [border-width-N] and [border-color-1] to
    [border-color-M] without a gap, and each is the token of one of the
    values. *)
Theorem one_border_token_for_each_value (l : list BorderCombination) :
  numbered (lit "border-width-") widthToken (widths (collectBorders l))
    (list_to_set (omap (fun c => truthyOpt (width c)) (bordersKept l))) /\
  numbered (lit "border-color-") borderColorToken (colors (collectBorders l))
    (list_to_set (omap (fun c => truthyOpt (borderColor c)) (bordersKept l))).
Proof.
  unfold collectBorders.
  destruct (foldl_borderStep_numbered (bordersKept l)
              {| widths := ∅; colors := ∅; seenWidths := ∅; seenColors := ∅ |})
    as (Hw & Hc & Hsw & Hsc); [apply numbered_empty..|].
  cbn in Hsw, Hsc. rewrite (left_id_L ∅ (∪)) in Hsw, Hsc.
  by rewrite <- Hsw, <- Hsc.
Qed.

End MoreBorders.

(** ** Shadows *)

Lemma isHexColor_shape (p : list N) :
  isHexColor p = true -> exists h, p = 35 :: h /\ length h = 6%nat.
Proof.
  intros Hp. unfold isHexColor in Hp. repeat case_match; try done; subst.
  eexists. split; [done|]. by apply andb_true_iff in Hp as [Hl%Nat.eqb_eq _].
Qed.

Section MoreShadows.
Context `{JSNumber}.

(** X12.  The colour of a shadow token is read from the fifth of the
    parts the shadow string splits into at white space, and only when
    that part is [#] and six hexadecimal digits; in every other case (a
    shorter string, a colour written first, an rgb() or rgba() colour, a
    named colour) the colour is [#000000]. *)
Theorem shadow_colour_is_fifth_part_or_black (index : nat) (entry : ShadowEntry) :
  exists v, (shadowToken index entry).2 = ShadowToken v /\
    hex (shadowColor v) =
      match splitSpaces (trim (shadow entry)) !! 4%nat with
      | Some p => if isHexColor p then p else lit "#000000"
      | None => lit "#000000"
      end.
Proof.
  eexists. split; [reflexivity|]. cbn [shadowColor].
  assert (forall h, length h = 6%nat ->
            hex (hexToW3CColor (35 :: h) None) = 35 :: h) as Hhex.
  { intros h Hl. unfold hexToW3CColor.
    destruct (short_has_no_rgb (35 :: h)) as [-> ->]; [cbn; lia|].
    change (replace (lit "#") [] (35 :: h)) with h. by rewrite Hl. }
  destruct (splitSpaces (trim (shadow entry)) !! 4%nat) as [p|];
    [|apply (Hhex (lit "000000") eq_refl)].
  destruct (isHexColor p) eqn:Hp.
  - apply isHexColor_shape in Hp as (h & -> & Hl). cbn [truthyStr andb].
    by apply Hhex.
  - rewrite andb_false_r. apply (Hhex (lit "000000") eq_refl).
Qed.

End MoreShadows.

(** The two sample shadows: the colour of the computed one is lost, and
    its parts are read one place off. *)
Example sample_shadows :
  (shadowToken 0 computedShadow).2 =
    ShadowToken
      {| offsetX := {| dimValue := Num (literal 0%Q); dimUnit := lit "px" |};
         offsetY := {| dimValue := Num (literal 0%Q); dimUnit := lit "px" |};
         blur := {| dimValue := Num (literal 0%Q); dimUnit := lit "px" |};
         spread := {| dimValue := Num (literal (1 # 10)%Q); dimUnit := lit "px" |};
         shadowColor := hexToW3CColor (lit "#000000") None |} /\
  (shadowToken 0 authoredShadow).2 =
    ShadowToken
      {| offsetX := {| dimValue := Num (literal 0%Q); dimUnit := lit "px" |};
         offsetY := {| dimValue := Num (literal 4%Q); dimUnit := lit "px" |};
         blur := {| dimValue := Num (literal 6%Q); dimUnit := lit "px" |};
         spread := {| dimValue := Num (literal (-1)%Q); dimUnit := lit "px" |};
         shadowColor := hexToW3CColor (lit "#1a2b3c") None |}.
Proof. split; reflexivity. Qed.

(** ** The domain of the source *)

Lemma replace_unfold (p r s : list N) :
  replace p r s =
    if startsWith p s then r ++ drop (length p) s
    else match s with
         | [] => []
         | c :: s' => c :: replace p r s'
         end.
Proof. by destruct s. Qed.

Lemma includes_unfold (s p : list N) :
  includes s p =
    startsWith p s || match s with
                      | [] => false
                      | _ :: s' => includes s' p
                      end.
Proof. by destruct s. Qed.

Lemma startsWith_shorter (p x y : list N) :
  startsWith p (x ++ y) = true -> (length p <= length x)%nat ->
  startsWith p x = true.
Proof.
  rewrite !startsWith_prefix. intros [r Hr] Hl. exists (drop (length p) x).
  rewrite <- (take_drop (length p) x) at 1. f_equal.
  apply (f_equal (take (length p))) in Hr.
  rewrite take_app_le in Hr by done. by rewrite Hr, take_app_length.
Qed.

(** Without an occurrence nothing is replaced. *)
Lemma replace_absent (p r s : list N) :
  includes s p = false -> replace p r s = s.
Proof.
  induction s as [|c s IH]; rewrite includes_unfold, replace_unfold;
    intros [-> Hs]%orb_false_iff; [done|]. by rewrite IH.
Qed.

(** The first occurrence is the one replaced, wherever it is. *)
Lemma replace_first (p r a b : list N) :
  includes (a ++ removelast p) p = false ->
  replace p r (a ++ p ++ b) = a ++ r ++ b.
Proof.
  induction a as [|c a IH]; intros Hinc; rewrite replace_unfold.
  - cbn. by rewrite startsWith_app, drop_app_length.
  - rewrite includes_unfold in Hinc. apply orb_false_iff in Hinc as [Hp Hinc].
    destruct (startsWith p ((c :: a) ++ p ++ b)) eqn:Hs.
    + exfalso. destruct p as [|x p] using rev_ind; [done|]. clear IHp.
      rewrite removelast_last in Hp. rewrite <- (assoc_L (++) p), (assoc_L (++) (c :: a)) in Hs.
      apply startsWith_shorter in Hs; [congruence|].
      cbn. rewrite !length_app. cbn. lia.
    + cbn. by rewrite IH.
Qed.

Section MoreFormat.
Context `{JSNumber} `{JSHost}.

(** X13.  The domain recorded with the tokens is the host name of the
    source address with its first [www.] taken out, wherever in the host
    name that is: a host name without [www.] is kept as it is, a leading
    [www.] is dropped, and so is one in the middle. *)
Theorem domain_drops_the_first_www (r : ExtractionResult) (out : W3CTokens)
    (u h : list N) :
  toW3CFormat r = Some out -> truthyOpt (url r) = Some u ->
  hostname u = Some h ->
  (includes h (lit "www.") = false -> domain (extensions out) = h) /\
  (forall a b, h = a ++ lit "www." ++ b ->
     includes (a ++ lit "www") (lit "www.") = false ->
     domain (extensions out) = a ++ b).
Proof.
  unfold toW3CFormat. intros Hout Hu Hh. rewrite Hu, Hh in Hout.
  injection Hout as <-. cbn [domain extensions]. split.
  - apply replace_absent.
  - intros a b -> Hinc. by apply (replace_first (lit "www.") [] a b).
Qed.

End MoreFormat.

(** The sample result was taken from [www.stripe.com]. *)
Lemma sample_domain :
  exists out, toW3CFormat sampleResult = Some out /\
    domain (extensions out) = lit "stripe.com".
Proof.
  destruct (toW3CFormat_returns sampleResult) as [out Hout].
  { right. exists (lit "https://www.stripe.com/pricing"), (lit "www.stripe.com").
    split; reflexivity. }
  exists out. split; [exact Hout|].
  destruct (domain_drops_the_first_www sampleResult out
              (lit "https://www.stripe.com/pricing") (lit "www.stripe.com")
              Hout eq_refl eq_refl) as [_ Hd].
  apply (Hd [] (lit "stripe.com")); reflexivity.
Defined.

(** ** [index.js]: the address *)

(** X14.  The address the action works with always starts with [http://]
    or [https://]: an argument that starts with one of them is taken as it
    is, and only such an argument is; any other gets [https://] in front.
    Doing it twice changes nothing more. *)
Theorem address_gets_a_scheme (input : list N) :
  startsWith (lit "http://") (withScheme input)
    || startsWith (lit "https://") (withScheme input) = true /\
  withScheme (withScheme input) = withScheme input /\
  (withScheme input = input <->
     startsWith (lit "http://") input || startsWith (lit "https://") input = true) /\
  (withScheme input = input \/ withScheme input = lit "https://" ++ input).
Proof.
  assert (startsWith (lit "http://") (withScheme input)
            || startsWith (lit "https://") (withScheme input) = true) as Hs.
  { unfold withScheme.
    destruct (startsWith (lit "http://") input) eqn:H1; cbn [negb andb];
      [by rewrite H1|].
    destruct (startsWith (lit "https://") input) eqn:H2; cbn [negb andb].
    - by rewrite H1, H2.
    - by rewrite startsWith_app, orb_true_r. }
  split; [done|]. split; [|split].
  - unfold withScheme at 1. apply orb_true_iff in Hs as [-> | ->]; [done|].
    by rewrite andb_false_r.
  - unfold withScheme.
    destruct (startsWith (lit "http://") input); [done|].
    destruct (startsWith (lit "https://") input); [done|]. cbn.
    split; [|done]. intros Heq. apply (f_equal length) in Heq.
    rewrite length_app in Heq. change (length (lit "https://")) with 8%nat in Heq.
    lia.
  - unfold withScheme. destruct (_ && _); auto.
Qed.

(** ** [index.js]: the name of the saved file *)

Lemma endsWith_app (s p : list N) : endsWith (s ++ p) p = true.
Proof. unfold endsWith. rewrite reverse_app. apply startsWith_app. Qed.

Lemma forallb_elem_of (f : N -> bool) (s : list N) (c : N) :
  forallb f s = true -> c ∈ s -> f c = true.
Proof.
  intros Hs Hc. apply list_elem_of_In in Hc.
  by apply (proj1 (forallb_forall f s) Hs).
Qed.

Lemma colons_and_dots_replaced (iso : list N) :
  forallb (fun c => negb ((c =? 58) || (c =? 46)))
    ((fun c => if (c =? 58) || (c =? 46) then 45 else c) <$> iso) = true.
Proof.
  induction iso as [|c iso IH]; cbn; [done|].
  apply andb_true_iff. split; [|exact IH].
  destruct ((c =? 58) || (c =? 46)) eqn:Hc; [done|]. by rewrite Hc.
Qed.

Lemma timestamp_dotless (iso : list N) :
  forallb (fun c => negb (c =? 46)) (timestamp iso) = true.
Proof.
  assert (forallb (fun c => negb (c =? 46))
            ((fun c => if (c =? 58) || (c =? 46) then 45 else c) <$> iso) = true)
    as Hall.
  { pose proof (colons_and_dots_replaced iso) as Hall.
    apply forallb_forall. intros c Hc.
    apply (proj1 (forallb_forall _ _) Hall) in Hc.
    apply negb_true_iff, orb_false_iff in Hc as [_ Hc]. by rewrite Hc. }
  unfold timestamp, beforeFirst. by rewrite span_all.
Qed.

(** X15.  The timestamp in the name of a saved file keeps every character
    of the ISO time, each [:] and [.] turned into [-]: the split at [.]
    that follows the replacement finds no [.] and cuts nothing, so the
    milliseconds and the [Z] stay. *)
Theorem timestamp_keeps_every_character (iso : list N) :
  timestamp iso = (fun c => if (c =? 58) || (c =? 46) then 45 else c) <$> iso /\
  length (timestamp iso) = length iso /\
  forallb (fun c => negb ((c =? 58) || (c =? 46))) (timestamp iso) = true.
Proof.
  assert (timestamp iso
          = (fun c => if (c =? 58) || (c =? 46) then 45 else c) <$> iso) as Heq.
  { unfold timestamp, beforeFirst. rewrite span_all; [done|].
    pose proof (colons_and_dots_replaced iso) as Hall.
    apply forallb_forall. intros c Hc.
    apply (proj1 (forallb_forall _ _) Hall) in Hc.
    apply negb_true_iff, orb_false_iff in Hc as [_ Hc]. by rewrite Hc. }
  rewrite Heq. split; [done|]. split; [apply length_fmap|].
  apply colons_and_dots_replaced.
Qed.

(** The name of a raw extraction does not end in [.tokens.json]. *)
Lemma raw_name_is_no_token_file (iso : list N) :
  isTokenFile (timestamp iso ++ lit ".json") = false.
Proof.
  unfold isTokenFile, endsWith. rewrite reverse_app.
  destruct (startsWith _ _) eqn:Hs; [exfalso|done].
  apply startsWith_prefix in Hs as [r Hr].
  change (reverse (lit ".json")) with (lit "nosj.") in Hr.
  change (reverse (lit ".tokens.json")) with (lit "nosj." ++ lit "snekot.") in Hr.
  rewrite <- (assoc_L (++)) in Hr. apply app_inv_head in Hr.
  pose proof (timestamp_dotless iso) as Hdot.
  assert (46 ∈ timestamp iso) as Hin.
  { apply elem_of_reverse. rewrite Hr. apply elem_of_app. left.
    apply (list_elem_of_lookup_2 _ 6). reflexivity. }
  by apply (forallb_elem_of _ _ _ Hdot) in Hin.
Qed.

Lemma token_name_is_a_token_file (iso : list N) :
  isTokenFile (timestamp iso ++ lit ".tokens" ++ lit ".json") = true.
Proof.
  change (lit ".tokens" ++ lit ".json") with (lit ".tokens.json").
  apply endsWith_app.
Qed.

(** X16.  A file the action saves is one the token builders pick up, by
    its name ending in [.tokens.json], exactly when it was saved with
    [--dtcg]: the name of a raw extraction never ends so, whatever the
    time. *)
Theorem saved_name_is_a_token_file_iff_dtcg (opts : OutputOptions) (iso : list N) :
  isTokenFile (filename opts iso) = dtcg opts.
Proof.
  unfold filename, suffix. destruct (dtcg opts).
  - apply token_name_is_a_token_file.
  - apply raw_name_is_no_token_file.
Qed.

(** The sample time. *)
Example sample_file_names :
  filename tokensAndTransform (now obligingDisk)
    = lit "2025-01-28T14-30-22-000Z.tokens.json" /\
  filename saveAndTransform (now obligingDisk)
    = lit "2025-01-28T14-30-22-000Z.json".
Proof. split; reflexivity. Qed.

(** ** [index.js]: the browsers of a run *)

Section Browsers.
Context {R : Type}.
Implicit Types (w : World R) (s : LoopState).




(** X18.  A failure to launch the browser ends the run at once, in either
    mode and whatever the message of the error: the launch is outside the
    inner [try], so the error is never tested for a timeout or a network
    failure, nothing is retried, and there is no browser to close. *)
Theorem launch_failure_is_not_retried w (fuel : nat) s (e : Error) :
  (1 <= fuel)%nat ->
  launch w (launches s) (negb (useHeaded s)) = Some e ->
  loop w fuel s =
    Some (Failed e {| useHeaded := useHeaded s; browser := browser s;
                      launches := S (launches s);
                      trace := trace s ++ [Launch (negb (useHeaded s))] |}).
Proof.
  intros Hf Hl. destruct fuel as [|fuel]; [lia|].
  cbn [loop]. unfold iteration. by rewrite Hl.
Qed.

End Browsers.


(** Where no browser starts the run fails after one launch, though the
    message of the error is a timeout. *)
Lemma no_browser_no_retry :
  retryable {| message := lit "browserType.launch: Timeout 180000ms exceeded." |}
    = true /\
  loop noBrowser 2 initial =
    Some (Failed {| message := lit "browserType.launch: Timeout 180000ms exceeded." |}
            {| useHeaded := false; browser := false; launches := 1;
               trace := [Launch true] |}).
Proof.
  split; [reflexivity|].
  apply (launch_failure_is_not_retried noBrowser 2 initial); [lia|reflexivity].
Defined.

(** ** [index.js]: what is written and what is shown *)

Section MoreOutput.
Context `{JSNumber} `{JSHost}.



Lemma style_dictionary_needs_dtcg (env : Environment)
    (opts : OutputOptions) (address : list N) (result : ExtractionResult)
    (effects : list Effect) (d : list N) :
  report env opts address result = Some effects ->
  RunStyleDictionary d ∈ effects -> dtcg opts = true.
Proof.
  unfold report, outputData. intros Heff Hin.
  destruct (dtcg opts) eqn:Hdtcg; [done|].
  cbn in Heff. injection Heff as <-. exfalso.
  rewrite orb_false_r in Hin.
  apply elem_of_app in Hin as [Hin|Hin].
  - destruct (saveOutput opts && negb (jsonOnly opts));
      [|by apply elem_of_nil in Hin].
    unfold saveJson in Hin. rewrite Hdtcg, andb_false_r in Hin.
    repeat case_match;
      repeat (apply elem_of_cons in Hin as [Heq|Hin]; [done|]);
      by apply elem_of_nil in Hin.
  - destruct (jsonOnly opts);
      apply elem_of_cons in Hin as [?|Hin]; try done; by apply elem_of_nil in Hin.
Qed.

(** X20.  Style Dictionary is run only on tokens that were saved: when
    the action runs it, [--transform] and [--dtcg] were given and
    [--json-only] was not, and before that the action wrote the W3C form
    of the result, in the directory of the same domain, to a file whose
    name ends in [.tokens.json], and the write succeeded. *)
Theorem style_dictionary_runs_on_saved_tokens (env : Environment)
    (opts : OutputOptions) (address : list N) (result : ExtractionResult)
    (effects : list Effect) (d : list N) :
  report env opts address result = Some effects ->
  RunStyleDictionary d ∈ effects ->
  transform opts = true /\ dtcg opts = true /\ jsonOnly opts = false /\
  exists tokens name before after,
    toW3CFormat result = Some tokens /\
    isTokenFile name = true /\
    writeFileSync env d name = true /\
    effects = before ++ WriteJson d name (W3CData tokens) :: after /\
    RunStyleDictionary d ∈ after.
Proof.
  intros Heff Hin.
  pose proof (style_dictionary_needs_dtcg _ _ _ _ _ _ Heff Hin) as Hdtcg.
  unfold report, outputData in Heff. rewrite Hdtcg in Heff.
  destruct (toW3CFormat result) as [tokens|]; [|done]. cbn in Heff.
  injection Heff as <-. rewrite orb_true_r in Hin. cbn [andb] in Hin.
  destruct (jsonOnly opts) eqn:Hjson; cbn [negb] in Hin.
  { apply elem_of_cons in Hin as [?|Hin]; [done|]. by apply elem_of_nil in Hin. }
  apply elem_of_app in Hin as [Hin|Hin];
    [|apply elem_of_cons in Hin as [?|Hin]; [done|]; by apply elem_of_nil in Hin].
  unfold saveJson in *. rewrite Hdtcg in *.
  destruct (hostname address) as [h|];
    [|apply elem_of_cons in Hin as [?|Hin]; [done|]; by apply elem_of_nil in Hin].
  cbn zeta in *.
  apply elem_of_cons in Hin as [?|Hin]; [done|].
  destruct (mkdirSync env _);
    [|apply elem_of_cons in Hin as [?|Hin]; [done|]; by apply elem_of_nil in Hin].
  apply elem_of_cons in Hin as [?|Hin]; [done|].
  destruct (writeFileSync env (replace (lit "www.") [] h)
              (filename opts (now env))) eqn:Hw;
    [|apply elem_of_cons in Hin as [?|Hin]; [done|]; by apply elem_of_nil in Hin].
  apply elem_of_cons in Hin as [?|Hin]; [done|].
  destruct (transform opts) eqn:Htr; cbn [andb negb] in *;
    [|by apply elem_of_nil in Hin].
  assert (d = replace (lit "www.") [] h) as ->.
  { unfold transformTokens in Hin.
    repeat (apply elem_of_cons in Hin as [Heq|Hin]; [try done|]);
      repeat case_match;
      repeat (apply elem_of_cons in Hin as [Heq|Hin]; [try done|]);
      try (by apply elem_of_nil in Hin); by injection Heq. }
  split; [done|]. split; [done|]. split; [done|].
  rewrite orb_true_r. cbn [andb app].
  exists tokens, (filename opts (now env)),
    [MakeDirectory (replace (lit "www.") [] h)]. eexists.
  split; [done|]. split.
  { unfold filename, suffix. rewrite Hdtcg. apply token_name_is_a_token_file. }
  split; [done|]. split; [reflexivity|].
  right. apply elem_of_app. by left.
Qed.

(** X21.  [--transform] without [--dtcg] never runs Style Dictionary.
    The notice that [--dtcg] is required is printed only in the block that
    saves the file: with [--save-output], without [--json-only], and once
    the file is written.  In every other case the flag is ignored without
    a word. *)
Theorem transform_without_dtcg_is_ignored (env : Environment)
    (opts : OutputOptions) (address : list N) (result : ExtractionResult)
    (effects : list Effect) :
  transform opts = true -> dtcg opts = false ->
  report env opts address result = Some effects ->
  (forall d, RunStyleDictionary d ∉ effects) /\
  (Say TransformNeedsDtcg ∈ effects <->
     saveOutput opts = true /\ jsonOnly opts = false /\
     exists h, hostname address = Some h /\
       mkdirSync env (replace (lit "www.") [] h) = true /\
       writeFileSync env (replace (lit "www.") [] h) (filename opts (now env))
         = true).
Proof.
  intros Htr Hdtcg Heff. split.
  - intros d Hin.
    pose proof (style_dictionary_needs_dtcg _ _ _ _ _ _ Heff Hin). congruence.
  - unfold report, outputData in Heff. rewrite Hdtcg in Heff. cbn in Heff.
    injection Heff as <-. rewrite orb_false_r.
    unfold saveJson. rewrite Htr, Hdtcg. cbn [andb negb].
    destruct (saveOutput opts), (jsonOnly opts); cbn [andb negb app].
    1,3,4: split; [|by intros (? & ? & _)]; intros Hin;
      apply elem_of_cons in Hin as [?|Hin]; try done; by apply elem_of_nil in Hin.
    destruct (hostname address) as [h|]; cbn.
    2: { split; [|by intros (_ & _ & ? & ? & _)]. intros Hin.
         repeat (apply elem_of_cons in Hin as [?|Hin]; [done|]).
         by apply elem_of_nil in Hin. }
    destruct (mkdirSync env _) eqn:Hm; cbn.
    2: { split; [|intros (_ & _ & ? & [= <-] & ? & _); congruence]. intros Hin.
         repeat (apply elem_of_cons in Hin as [?|Hin]; [done|]).
         by apply elem_of_nil in Hin. }
    destruct (writeFileSync env _ _) eqn:Hw; cbn.
    2: { split; [|intros (_ & _ & ? & [= <-] & _ & ?); congruence]. intros Hin.
         repeat (apply elem_of_cons in Hin as [?|Hin]; [done|]).
         by apply elem_of_nil in Hin. }
    split; [eauto 8|]. intros _. do 3 right. left.
Qed.

End MoreOutput.

(** The run of the sample with [--dtcg --transform] on a disk that takes
    everything: Style Dictionary runs, after the tokens were written. *)
Lemma sample_tokens_are_transformed :
  transform tokensAndTransform = true /\ dtcg tokensAndTransform = true /\
  jsonOnly tokensAndTransform = false /\
  exists tokens name before after,
    toW3CFormat sampleResult = Some tokens /\
    isTokenFile name = true /\
    writeFileSync obligingDisk (lit "stripe.com") name = true /\
    default [] (report obligingDisk tokensAndTransform
                  (lit "https://www.stripe.com/pricing") sampleResult)
      = before ++ WriteJson (lit "stripe.com") name (W3CData tokens) :: after /\
    RunStyleDictionary (lit "stripe.com") ∈ after.
Proof.
  apply (style_dictionary_runs_on_saved_tokens obligingDisk tokensAndTransform
           (lit "https://www.stripe.com/pricing") sampleResult).
  - reflexivity.
  - apply (list_elem_of_lookup_2 _ 5). reflexivity.
Defined.

(** The run of the sample with [--save-output --transform]: the notice,
    and no Style Dictionary. *)
Lemma sample_transform_needs_dtcg :
  (forall d, RunStyleDictionary d
             ∉ default [] (report obligingDisk saveAndTransform
                             (lit "https://www.stripe.com/pricing") sampleResult)) /\
  Say TransformNeedsDtcg
    ∈ default [] (report obligingDisk saveAndTransform
                    (lit "https://www.stripe.com/pricing") sampleResult).
Proof.
  destruct (transform_without_dtcg_is_ignored obligingDisk saveAndTransform
              (lit "https://www.stripe.com/pricing") sampleResult
              (default [] (report obligingDisk saveAndTransform
                             (lit "https://www.stripe.com/pricing") sampleResult))
              eq_refl eq_refl eq_refl) as [Hno Hsay].
  split; [exact Hno|]. apply Hsay.
  split; [reflexivity|]. split; [reflexivity|].
  exists (lit "www.stripe.com"). repeat split; reflexivity.
Defined.

(** ** [build-tokens.js]: the latest token file of a domain *)

Section Sorting.
Context {A : Type} (time : A -> Z).

(** The head of a list sorted by decreasing time is the first of the
    elements with the greatest time. *)
Lemma sortBy_head (l : list A) :
  match sortBy (fun a b => (time b - time a)%Z) l with
  | [] => l = []
  | x :: _ =>
      exists l1 l2, l = l1 ++ x :: l2 /\
        Forall (fun y => (time y < time x)%Z) l1 /\
        Forall (fun y => (time y <= time x)%Z) l2
  end.
Proof.
  induction l as [|a l IH]; [done|]. unfold sortBy in *. cbn [foldr].
  revert IH. generalize (foldr (insertSorted (fun a b => (time b - time a)%Z)) [] l).
  intros [|x sorted] IH; cbn.
  - subst. by exists [], [].
  - destruct IH as (l1 & l2 & -> & H1 & H2).
    destruct (Z.leb_spec (time x - time a) 0).
    + exists [], (l1 ++ x :: l2). split; [done|]. split; [done|].
      apply Forall_app. split; [|apply Forall_cons; split].
      * eapply Forall_impl; [exact H1|]. cbn. lia.
      * lia.
      * eapply Forall_impl; [exact H2|]. cbn. lia.
    + exists (a :: l1), l2. split; [done|]. split; [|done].
      apply Forall_cons. split; [lia|done].
Qed.

End Sorting.

Lemma find_entry (names : list DirEntry) (d : DirEntry) :
  NoDup (entryName <$> names) -> d ∈ names ->
  List.find (fun e => bool_decide (entryName e = entryName d)) names = Some d.
Proof.
  induction names as [|e names IH]; intros Hnd Hin; [by apply elem_of_nil in Hin|].
  cbn in *. apply NoDup_cons in Hnd as [Hne Hnd].
  apply elem_of_cons in Hin as [->|Hin]; [by rewrite bool_decide_eq_true_2|].
  rewrite bool_decide_eq_false_2; [by apply IH|].
  intros Heq. apply Hne. rewrite Heq. by apply list_elem_of_fmap_2.
Qed.

Lemma latest_file_of_listing (outputDir : list N)
    (output : option (list DirEntry)) (domain : list N)
    (listing : list FileEntry) :
  readDomain output domain = Some listing ->
  match getLatestTokenFile outputDir output domain with
  | None => False
  | Some None => Forall (fun f => isTokenFile (fileName f) = false) listing
  | Some (Some p) =>
      exists l1 f l2,
        List.filter (fun f => isTokenFile (fileName f)) listing = l1 ++ f :: l2 /\
        p = join (join outputDir domain) (fileName f) /\
        Forall (fun g => (mtime g < mtime f)%Z) l1 /\
        Forall (fun g => (mtime g <= mtime f)%Z) l2
  end.
Proof.
  intros Hread. unfold getLatestTokenFile. rewrite Hread. cbn.
  pose proof (sortBy_head tokenFileTime
                ((fun f => {| tokenFileName := fileName f;
                              tokenFilePath := join (join outputDir domain) (fileName f);
                              tokenFileTime := mtime f |})
                   <$> List.filter (fun f => isTokenFile (fileName f)) listing))
    as Hhead.
  destruct (sortBy _ _) as [|t sorted].
  - apply fmap_nil_inv in Hhead. apply Forall_forall. intros f Hf.
    destruct (isTokenFile (fileName f)) eqn:Ht; [|done].
    assert (f ∈ List.filter (fun f => isTokenFile (fileName f)) listing) as Hin.
    { apply list_elem_of_In, filter_In. by rewrite <- list_elem_of_In. }
    rewrite Hhead in Hin. by apply elem_of_nil in Hin.
  - destruct Hhead as (m1 & m2 & Heq & H1 & H2).
    apply fmap_app_inv in Heq as (l1 & l2' & -> & Heq & ->).
    symmetry in Heq. apply fmap_cons_inv in Heq as (f & l2 & -> & -> & ->).
    exists l1, f, l2. split; [done|]. split; [done|].
    rewrite Forall_fmap in H1. rewrite Forall_fmap in H2. done.
Qed.

(** X22.  For a domain directory [getLatestTokenFile] does not throw.  It
    returns [null] exactly when no name in the directory ends in
    [.tokens.json]; otherwise it returns the path, under the domain
    directory, of the token file that was modified last, the first such
    in the order of the listing when several share that time. *)
Theorem latest_token_file_is_the_latest (outputDir : list N)
    (output : option (list DirEntry)) (domain : list N)
    (listing : list FileEntry) :
  readDomain output domain = Some listing ->
  is_Some (getLatestTokenFile outputDir output domain) /\
  (getLatestTokenFile outputDir output domain = Some None <->
     Forall (fun f => isTokenFile (fileName f) = false) listing) /\
  (forall p, getLatestTokenFile outputDir output domain = Some (Some p) ->
     exists l1 f l2,
       List.filter (fun f => isTokenFile (fileName f)) listing = l1 ++ f :: l2 /\
       p = join (join outputDir domain) (fileName f) /\
       Forall (fun g => (mtime g < mtime f)%Z) l1 /\
       Forall (fun g => (mtime g <= mtime f)%Z) l2).
Proof.
  intros Hread. pose proof (latest_file_of_listing outputDir _ _ _ Hread) as Hl.
  destruct (getLatestTokenFile outputDir output domain) as [[p|]|]; [| |done].
  - split; [done|]. split; [|by intros ? [= <-]]. split; [done|]. intros Hall.
    destruct Hl as (l1 & f & l2 & Hf & _). exfalso.
    assert (In f (List.filter (fun f => isTokenFile (fileName f)) listing)) as Hin.
    { rewrite Hf. apply in_or_app. right. by left. }
    apply filter_In in Hin as [Hin Ht]. apply list_elem_of_In in Hin.
    apply (proj1 (Forall_forall _ _) Hall) in Hin. congruence.
  - split; [done|]. split; [done|]. by intros p.
Qed.

(** X23.  Every domain [getAvailableDomains] lists has a latest token
    file: for such a domain [getLatestTokenFile] neither throws nor
    returns [null], and what it returns is the path of a token file.  So
    the main part of the script never reads a property of [null], and it
    ends without an exception whatever the arguments: the names in a
    directory being distinct. *)
Theorem available_domains_have_a_token_file (outputDir : list N)
    (names : list DirEntry) (build : list N -> list N -> bool)
    (args : list (list N)) :
  NoDup (entryName <$> names) ->
  (forall domain, domain ∈ getAvailableDomains (Some names) ->
     exists p, getLatestTokenFile outputDir (Some names) domain = Some (Some p) /\
       isTokenFile p = true) /\
  is_Some (main outputDir (Some names) build args).
Proof.
  intros Hnd.
  assert (forall domain, domain ∈ getAvailableDomains (Some names) ->
            exists p, getLatestTokenFile outputDir (Some names) domain = Some (Some p) /\
              isTokenFile p = true) as Hlatest.
  { intros domain Hd. cbn in Hd.
    apply list_elem_of_fmap in Hd as (d & -> & Hd).
    apply list_elem_of_In, filter_In in Hd as [Hd Hok].
    apply list_elem_of_In in Hd. apply andb_true_iff in Hok as [Hdir Htok].
    assert (readDomain (Some names) (entryName d) = Some (files d)) as Hread.
    { unfold readDomain. cbn. rewrite (find_entry names d Hnd Hd). cbn.
      by rewrite Hdir. }
    pose proof (latest_file_of_listing outputDir (Some names) (entryName d)
                  (files d) Hread) as Hl.
    destruct (getLatestTokenFile outputDir (Some names) (entryName d))
      as [[p|]|]; [|exfalso|done].
    - exists p. split; [done|].
      destruct Hl as (l1 & f & l2 & Hf & -> & _).
      assert (isTokenFile (fileName f) = true) as Ht.
      { assert (In f (List.filter (fun f => isTokenFile (fileName f)) (files d))) as Hin.
        { rewrite Hf. apply in_or_app. right. by left. }
        by apply filter_In in Hin as [_ ?]. }
      unfold isTokenFile, endsWith, join in *.
      rewrite reverse_app, reverse_cons, <- (assoc_L (++)).
      apply startsWith_prefix in Ht as [r ->]. rewrite <- (assoc_L (++)).
      apply startsWith_app.
    - unfold hasTokenFile in Htok. apply existsb_exists in Htok as (f & Hin & Hf).
      apply list_elem_of_In in Hin.
      apply (proj1 (Forall_forall _ _) Hl) in Hin. congruence. }
  split; [exact Hlatest|].
  unfold main. destruct (length _ =? 0)%nat; [done|].
  destruct (truthyOpt (args !! 0%nat)) as [requested|].
  - case_bool_decide as Hreq; [|done].
    destruct (Hlatest requested Hreq) as (p & Hp & _).
    unfold buildDomain. rewrite Hp. cbn. by eexists.
  - assert (is_Some (mapM (fun d =>
                file ← getLatestTokenFile outputDir (Some names) d;
                file ← file; Some (d, afterLast 47 file))
              (getAvailableDomains (Some names)))) as [shown ->].
    { apply mapM_is_Some, Forall_forall. intros d Hd.
      destruct (Hlatest d Hd) as (p & Hp & _). unfold compose. rewrite Hp.
      by eexists. }
    assert (is_Some (mapM (buildDomain outputDir (Some names) build)
              (getAvailableDomains (Some names)))) as [built ->].
    { apply mapM_is_Some, Forall_forall. intros d Hd.
      destruct (Hlatest d Hd) as (p & Hp & _).
      unfold compose, buildDomain. rewrite Hp. by eexists. }
    by eexists.
Qed.

(** The latest token file of the sample domain is the one of February. *)
Lemma sample_latest_token_file :
  getLatestTokenFile (lit "/app/output") (Some sampleOutput) (lit "stripe.com")
    = Some (Some (lit "/app/output/stripe.com/2025-02-03T09-00-00-000Z.tokens.json")) /\
  exists l1 f l2,
    List.filter (fun f => isTokenFile (fileName f)) (files stripeDirectory)
      = l1 ++ f :: l2 /\
    lit "/app/output/stripe.com/2025-02-03T09-00-00-000Z.tokens.json"
      = join (join (lit "/app/output") (lit "stripe.com")) (fileName f) /\
    Forall (fun g => (mtime g < mtime f)%Z) l1 /\
    Forall (fun g => (mtime g <= mtime f)%Z) l2.
Proof.
  split; [reflexivity|].
  apply (latest_token_file_is_the_latest (lit "/app/output") (Some sampleOutput)
           (lit "stripe.com") (files stripeDirectory) eq_refl).
  reflexivity.
Defined.

(** In the sample directory one domain has tokens, and the script ends
    without an exception. *)
Lemma sample_domains_are_built :
  getAvailableDomains (Some sampleOutput) = [lit "stripe.com"] /\
  (forall domain, domain ∈ getAvailableDomains (Some sampleOutput) ->
     exists p,
       getLatestTokenFile (lit "/app/output") (Some sampleOutput) domain
         = Some (Some p) /\
       isTokenFile p = true) /\
  is_Some (main (lit "/app/output") (Some sampleOutput) (fun _ _ => true) []).
Proof.
  split; [reflexivity|].
  apply (available_domains_have_a_token_file (lit "/app/output") sampleOutput).
  apply (bool_decide_unpack _). vm_compute. exact I.
Defined.

(** ** [style-dictionary.config.js]: the latest token file of all *)

Lemma latestOf_file (d : DirEntry) (fs : list FileEntry)
    (seen : list (DirEntry * FileEntry)) (latest : option (list N) * Q) :
  latestOf seen latest ->
  latestOf (seen ++ (pair d <$> fs))
    (foldl (fun latest file =>
              if negb (Qle_bool (mtimeMs file) latest.2)
              then (Some (join (join (lit "output") (entryName d)) (fileName file)),
                    mtimeMs file)
              else latest) latest fs).
Proof.
  revert seen latest. induction fs as [|f fs IH]; intros seen latest Hinv.
  { cbn. by rewrite (right_id_L [] (++)). }
  cbn [foldl fmap list_fmap].
  replace (seen ++ (d, f) :: (pair d <$> fs))
    with ((seen ++ [(d, f)]) ++ (pair d <$> fs)) by by rewrite <- (assoc_L (++)).
  apply IH. destruct Hinv as (Hpos & Hall & Hfile).
  destruct (Qle_bool (mtimeMs f) latest.2) eqn:Hle; cbn [negb].
  - apply Qle_bool_iff in Hle. split; [done|]. split.
    + apply Forall_app. split; [done|]. by apply Forall_singleton.
    + destruct latest.1 as [p|]; [|done].
      destruct Hfile as (d' & f' & Hin & ? & ? & ?). exists d', f'.
      split; [|done]. apply elem_of_app. by left.
  - assert (latest.2 < mtimeMs f)%Q as Hlt.
    { apply Qnot_le_lt. intros Hn. apply Qle_bool_iff in Hn. congruence. }
    cbn. split; [|split].
    + apply Qlt_le_weak. by apply (Qle_lt_trans _ latest.2).
    + apply Forall_app. split.
      * eapply Forall_impl; [exact Hall|]. cbn. intros df Hdf.
        apply (Qle_trans _ latest.2); [done|]. by apply Qlt_le_weak.
      * apply Forall_singleton. cbn. apply Qle_refl.
    + exists d, f. split; [apply elem_of_app; right; by left|].
      split; [done|]. split; [apply Qeq_refl|].
      by apply (Qle_lt_trans _ latest.2).
Qed.

Lemma latestOf_domain (domains : list DirEntry)
    (seen : list (DirEntry * FileEntry)) (latest : option (list N) * Q) :
  latestOf seen latest ->
  latestOf (seen ++ tokenFiles domains)
    (foldl (fun latest domain =>
              if isDirectory domain
              then foldl (fun latest file =>
                            if negb (Qle_bool (mtimeMs file) latest.2)
                            then (Some (join (join (lit "output") (entryName domain))
                                          (fileName file)),
                                  mtimeMs file)
                            else latest)
                     latest
                     (List.filter (fun f => isTokenFile (fileName f)) (files domain))
              else latest)
       latest domains).
Proof.
  revert seen latest. induction domains as [|d domains IH]; intros seen latest Hinv.
  { cbn. by rewrite (right_id_L [] (++)). }
  cbn [foldl tokenFiles flat_map]. rewrite (assoc_L (++)). apply IH.
  destruct (isDirectory d).
  - by apply latestOf_file.
  - by rewrite (right_id_L [] (++)).
Qed.

(** X24.  The configuration of Style Dictionary reads one token file: of
    the files of the domain directories whose names end in [.tokens.json],
    the one modified last.  It falls back to the pattern that matches
    every token file only when there is no token file modified after time
    0, so also when there is none at all. *)
Theorem config_reads_the_latest_token_file (domains : list DirEntry) (source : list N) :
  findLatestTokensFile (Some domains) = Some source ->
  (source = lit "output/**/*.tokens.json" /\
   Forall (fun df => (mtimeMs df.2 <= 0)%Q) (tokenFiles domains)) \/
  (exists d f, (d, f) ∈ tokenFiles domains /\
     source = join (join (lit "output") (entryName d)) (fileName f) /\
     (0 < mtimeMs f)%Q /\
     Forall (fun df => (mtimeMs df.2 <= mtimeMs f)%Q) (tokenFiles domains)).
Proof.
  unfold findLatestTokensFile. cbn [mbind option_bind].
  assert (latestOf [] (None, 0%Q)) as Hinv.
  { split; [apply Qle_refl|]. split; [done|]. cbn. apply Qeq_refl. }
  apply (latestOf_domain domains) in Hinv. cbn [app] in Hinv.
  destruct Hinv as (Hpos & Hall & Hfile). revert Hpos Hall Hfile.
  generalize (foldl (fun latest domain =>
              if isDirectory domain
              then foldl (fun latest file =>
                            if negb (Qle_bool (mtimeMs file) latest.2)
                            then (Some (join (join (lit "output") (entryName domain))
                                          (fileName file)),
                                  mtimeMs file)
                            else latest)
                     latest
                     (List.filter (fun f => isTokenFile (fileName f)) (files domain))
              else latest)
       (None, 0%Q) domains).
  intros [[p|] t]; cbn [fst snd]; intros Hpos Hall Hfile [= <-].
  - right. destruct Hfile as (d & f & Hin & -> & Heq & Hlt). exists d, f.
    split; [done|]. split; [done|]. split; [by rewrite Heq|].
    eapply Forall_impl; [exact Hall|]. cbn. intros df Hdf. by rewrite Heq.
  - left. split; [done|].
    eapply Forall_impl; [exact Hall|]. cbn. intros df Hdf. by rewrite <- Hfile.
Qed.

(** Of the sample directory the configuration reads the tokens of
    February. *)
Lemma sample_config_source :
  findLatestTokensFile (Some sampleOutput)
    = Some (lit "output/stripe.com/2025-02-03T09-00-00-000Z.tokens.json") /\
  ((lit "output/stripe.com/2025-02-03T09-00-00-000Z.tokens.json"
      = lit "output/**/*.tokens.json" /\
    Forall (fun df => (mtimeMs df.2 <= 0)%Q) (tokenFiles sampleOutput)) \/
   (exists d f, (d, f) ∈ tokenFiles sampleOutput /\
      lit "output/stripe.com/2025-02-03T09-00-00-000Z.tokens.json"
        = join (join (lit "output") (entryName d)) (fileName f) /\
      (0 < mtimeMs f)%Q /\
      Forall (fun df => (mtimeMs df.2 <= mtimeMs f)%Q) (tokenFiles sampleOutput))).
Proof.
  split; [reflexivity|].
  apply (config_reads_the_latest_token_file sampleOutput). reflexivity.
Defined.
